(** * ts-tree-lib: a shallow embedding of [TreeNode] and [Tree]

    The library keeps a tree as a graph of heap objects: a [TreeNode] holds
    a model, an index and an array of references to its children, and every
    comparison between nodes ([===], [includes], [indexOf], [filter]) is by
    reference.  Several operations mutate the [children] array of a node in
    place while other nodes still point to it, so the embedding keeps an
    explicit store of nodes, addressed by location, and threads it through
    every mutating method.

    Recursion of the source follows the [children] references and does not
    end on a cyclic graph.  The recursive methods therefore take a [fuel]
    argument and answer [Err OutOfFuel] when it runs out; the theorems about
    them show that a finite bound of fuel gives the result on every acyclic
    graph. *)

From stdpp Require Import base option list gmap strings.
From Stdlib Require Import ZArith Lia.

Set Warnings "-register-all".
Local Open Scope Z_scope.
Local Open Scope nat_scope.

(** ** Results of a call *)

(** [TypeError] is what JavaScript raises on a property access through
    [undefined] or [null]; [OutOfFuel] belongs to the embedding only. *)
Inductive error : Type :=
| TypeError
| OutOfFuel.

Inductive res (A : Type) : Type :=
| Ok (a : A)
| Err (e : error).
Arguments Ok {A} a.
Arguments Err {A} e.

#[global] Instance res_ret : MRet res := fun A a => Ok a.
#[global] Instance res_bind : MBind res := fun A B f m =>
  match m with
  | Ok a => f a
  | Err e => Err e
  end.

(** ** The store of nodes *)

(** A reference to a [TreeNode] object. *)
Definition loc : Type := nat.

(** The fields of [class TreeNode<NodeModelType>].  [index] is declared a
    number but [Tree.parse] passes [object.index], which is [undefined] when
    the input has no such entry, hence the option.  The optional [strategy]
    field of a node is read by no method and is left out. *)
Record TreeNode (M : Type) : Type := mkTreeNode {
  model : M;
  index : option Z;
  children : list loc
}.
Arguments mkTreeNode {M} model index children.
Arguments model {M} t.
Arguments index {M} t.
Arguments children {M} t.

Abbreviation heap M := (gmap loc (TreeNode M)).

(** [node.children].  Every reference a JavaScript program holds is live;
    a location outside the store stands for no object of the program and
    reads as a node without children. *)
Definition children_of {M} (h : heap M) (n : loc) : list loc :=
  match h !! n with
  | Some nd => children nd
  | None => []
  end.

(** [node.children = cs], or any in-place change of that array to [cs]. *)
Definition set_children {M} (h : heap M) (n : loc) (cs : list loc) : heap M :=
  alter (fun nd => mkTreeNode (model nd) (index nd) cs) n h.

(** [new TreeNode(model, index)]: a fresh object with [children = []]. *)
Definition new_TreeNode {M} (h : heap M) (m : M) (i : option Z) : loc * heap M :=
  let l := fresh (dom h) in
  (l, <[l := mkTreeNode m i []]> h).

(** ** Loops *)

(** [for (const x of xs) { s = body(x, s) }], stopping at the first error. *)
Fixpoint for_of {A St : Type} (xs : list A) (body : A → St → res St) (s : St) : res St :=
  match xs with
  | [] => Ok s
  | x :: xs' => s' ← body x s; for_of xs' body s'
  end.

(** [for (const x of xs) { const r = body(x); if (r) return r; } return null]. *)
Fixpoint for_of_return {A B : Type} (xs : list A) (body : A → res (option B)) : res (option B) :=
  match xs with
  | [] => Ok None
  | x :: xs' =>
      r ← body x;
      match r with
      | Some b => Ok (Some b)
      | None => for_of_return xs' body
      end
  end.

(** The same loop with a body that can end it: [body] answers [true] to
    return from the enclosing function at once. *)
Fixpoint for_of_until {A St : Type} (xs : list A) (body : A → St → res (bool * St))
    (s : St) : res (bool * St) :=
  match xs with
  | [] => Ok (false, s)
  | x :: xs' =>
      '(stop, s') ← body x s;
      if (stop : bool) then Ok (true, s') else for_of_until xs' body s'
  end.

(** [xs.forEach((x, i) => { s = body(x, i, s) })] over an array that the
    body does not change. *)
Definition forEach {A St : Type} (body : A → nat → St → res St)
    : list A → nat → St → res St :=
  fix go (xs : list A) (i : nat) (s : St) : res St :=
    match xs with
    | [] => Ok s
    | x :: xs' => s' ← body x i s; go xs' (S i) s'
    end.

(** ** Arrays *)

(** [arr.findIndex(p)]: the first position whose element satisfies [p],
    or [-1]. *)
Fixpoint findIndex {A : Type} (p : A → bool) (arr : list A) : Z :=
  match arr with
  | [] => (-1)%Z
  | x :: arr' =>
      if p x then 0%Z
      else let i := findIndex p arr' in
           if (i =? -1)%Z then (-1)%Z else (i + 1)%Z
  end.

(** [arr.indexOf(x)], by reference identity. *)
Definition indexOf (arr : list loc) (x : loc) : Z :=
  findIndex (fun y => bool_decide (y = x)) arr.

(** [arr.splice(start, 0, item)] for [0 <= start]; a start past the end
    appends, as in JavaScript. *)
Definition splice_insert {A : Type} (arr : list A) (start : Z) (item : A) : list A :=
  take (Z.to_nat start) arr ++ item :: drop (Z.to_nat start) arr.

(** [arr.splice(start, 1)] for [0 <= start]. *)
Definition splice_delete {A : Type} (arr : list A) (start : Z) : list A :=
  take (Z.to_nat start) arr ++ drop (S (Z.to_nat start)) arr.

(** ** Strings *)

Fixpoint starts_with (s sub : string) : bool :=
  match sub, s with
  | EmptyString, _ => true
  | String c sub', String d s' => bool_decide (c = d) && starts_with s' sub'
  | String _ _, EmptyString => false
  end.

(** [s.includes(sub)]. *)
Fixpoint includes (s sub : string) : bool :=
  starts_with s sub ||
  match s with
  | EmptyString => false
  | String _ s' => includes s' sub
  end.

(** The six values of the [order] parameter of [depthFirstSearch]. *)
Inductive Order : Type :=
| PreOrder
| PostOrder
| InOrder
| ReversePreOrder
| ReversePostOrder
| ReverseInOrder.

Definition order_string (o : Order) : string :=
  match o with
  | PreOrder => "pre-order"
  | PostOrder => "post-order"
  | InOrder => "in-order"
  | ReversePreOrder => "reverse-pre-order"
  | ReversePostOrder => "reverse-post-order"
  | ReverseInOrder => "reverse-in-order"
  end.

(** ** Predicates *)

(** Reading a named property off a model, [node.model[name]]. *)
Class Model (M V : Type) : Type := property : M → string → V.

(** A predicate of the caller, [(node) => boolean]: it may read any node. *)
Definition predicate (M : Type) : Type := heap M → loc → bool.

(** The argument [predicateOrProperty] together with [value]. *)
Inductive predicateOrProperty (M V : Type) : Type :=
| Predicate (p : predicate M)
| Property (name : string) (value : V).
Arguments Predicate {M V} p.
Arguments Property {M V} name value.

(** The resolution every method starts with:
    [node.model[predicateOrProperty] === value] for a property name. *)
Definition resolve {M V} `{Model M V, EqDecision V}
    (pp : predicateOrProperty M V) : predicate M :=
  match pp with
  | Predicate p => p
  | Property name value => fun h node =>
      match h !! node with
      | Some nd => bool_decide (property (model nd) name = value)
      | None => false
      end
  end.

(** ** [class TreeNode] *)

Module Node.
Section Methods.
Context {M V : Type} `{Model M V, EqDecision V}.

(** [addChild(child)]: [this.children.push(child)] unless [child] is null. *)
Definition addChild (h : heap M) (this : loc) (child : option loc) : heap M :=
  match child with
  | Some c => set_children h this (children_of h this ++ [c])
  | None => h
  end.

(** [removeChild(child)]: keeps the entries [c !== child]. *)
Definition removeChild (h : heap M) (this : loc) (child : option loc) : heap M :=
  match child with
  | Some c =>
      set_children h this (filter (fun x => x ≠ c) (children_of h this))
  | None => h
  end.

(** [moveChild(child, newParent)]. *)
Definition moveChild (h : heap M) (this : loc) (child newParent : option loc) : heap M :=
  match child, newParent with
  | Some _, Some np => addChild (removeChild h this child) np child
  | _, _ => h
  end.

(** [findChild(predicateOrProperty, value)].  The recursive call passes the
    resolved predicate.  [if (child.children)] holds for every array, the
    empty one too, so each child is searched. *)
Fixpoint findChild (fuel : nat) (h : heap M) (this : loc)
    (pp : predicateOrProperty M V) : res (option loc) :=
  match fuel with
  | 0 => Err OutOfFuel
  | S fuel' =>
      let predicate := resolve pp in
      for_of_return (children_of h this) (fun child =>
        if predicate h child then Ok (Some child)
        else findChild fuel' h child (Predicate predicate))
  end.

(** The helper [traverse] of [getPath]; the array [path] is threaded
    through, and the answer is the boolean with the array after the call. *)
Fixpoint getPath_traverse (fuel : nat) (h : heap M) (targetNode : loc)
    (currentNode : option loc) (path : list loc) : res (bool * list loc) :=
  match currentNode with
  | None => Ok (false, path)
  | Some cur =>
      match fuel with
      | 0 => Err OutOfFuel
      | S fuel' =>
          let path := path ++ [cur] in
          if bool_decide (cur = targetNode) then Ok (true, path)
          else
            '(found, path) ← for_of_until (children_of h cur)
                  (fun child => getPath_traverse fuel' h targetNode (Some child)) path;
            if (found : bool) then Ok (true, path) else Ok (false, removelast path)
      end
  end.

(** [getPath(targetNode)]. *)
Definition getPath (fuel : nat) (h : heap M) (this : loc) (targetNode : loc)
    : res (option (list loc)) :=
  '(_, path) ← getPath_traverse fuel h targetNode (Some this) [];
  Ok (if bool_decide (0 < length path) then Some path else None).

(** [getReversePath(targetNode)]. *)
Definition getReversePath (fuel : nat) (h : heap M) (this : loc) (targetNode : loc)
    : res (option (list loc)) :=
  path ← getPath fuel h this targetNode;
  match path with
  | None => Ok None
  | Some p => Ok (Some (reverse p))
  end.

(** [getParent(child)]. *)
Fixpoint getParent (fuel : nat) (h : heap M) (this : loc) (child : option loc)
    : res (option loc) :=
  match child with
  | None => Ok None
  | Some c =>
      match fuel with
      | 0 => Err OutOfFuel
      | S fuel' =>
          for_of_return (children_of h this) (fun node =>
            if bool_decide (c ∈ children_of h node) then Ok (Some node)
            else getParent fuel' h node child)
      end
  end.

(** [findChildren(predicateOrProperty, value)]: one level only. *)
Definition findChildren (h : heap M) (this : loc) (pp : predicateOrProperty M V)
    : list loc :=
  filter (fun c => resolve pp h c = true) (children_of h this).

(** [deleteChildren(predicateOrProperty, value)]. *)
Definition deleteChildren (h : heap M) (this : loc) (pp : predicateOrProperty M V)
    : heap M :=
  set_children h this
    (filter (fun c => negb (resolve pp h c) = true) (children_of h this)).

(** [insertChild(child, predicateOrProperty, value)].  The test
    [!this.children] fails for every array and is left out. *)
Definition insertChild (h : heap M) (this : loc) (child : option loc)
    (pp : predicateOrProperty M V) : heap M :=
  match child with
  | None => h
  | Some c =>
      let insertIndex := findIndex (resolve pp h) (children_of h this) in
      if bool_decide (insertIndex ≠ (-1)%Z)
      then set_children h this (splice_insert (children_of h this) insertIndex c)
      else set_children h this (children_of h this ++ [c])
  end.

(** The helper [traverse] of [depthFirstSearch], with the array [result]
    threaded through. *)
Fixpoint depthFirstSearch_traverse (fuel : nat) (h : heap M) (order : Order)
    (currentNode : loc) (result : list loc) : res (list loc) :=
  match fuel with
  | 0 => Err OutOfFuel
  | S fuel' =>
      let result :=
        if includes (order_string order) "pre-order"
        then result ++ [currentNode] else result in
      result ← for_of (children_of h currentNode)
                 (depthFirstSearch_traverse fuel' h order) result;
      Ok (if includes (order_string order) "in-order" then result ++ [currentNode]
          else if includes (order_string order) "post-order" then result ++ [currentNode]
          else result)
  end.

(** [depthFirstSearch(node, order)]. *)
Definition depthFirstSearch (fuel : nat) (h : heap M) (node : loc) (order : Order)
    : res (list loc) :=
  result ← depthFirstSearch_traverse fuel h order node [];
  match order with
  | ReversePreOrder | ReversePostOrder | ReverseInOrder => Ok (reverse result)
  | _ => Ok result
  end.

(** The loop of [breadthFirstOrder]: one unit of fuel for each turn. *)
Fixpoint breadthFirstOrder_loop (fuel : nat) (h : heap M) (queue result : list loc)
    : res (list loc) :=
  match queue with
  | [] => Ok result
  | current :: queue' =>
      match fuel with
      | 0 => Err OutOfFuel
      | S fuel' =>
          breadthFirstOrder_loop fuel' h (queue' ++ children_of h current)
            (result ++ [current])
      end
  end.

(** [breadthFirstOrder(node)]. *)
Definition breadthFirstOrder (fuel : nat) (h : heap M) (node : loc) : res (list loc) :=
  breadthFirstOrder_loop fuel h [node] [].

End Methods.
End Node.

(** [defaultTraversalStrategy(node)]: [depthFirstSearch] with its default
    order, ["in-order"]. *)
Definition defaultTraversalStrategy {M} (fuel : nat) (h : heap M) (node : loc)
    : res (list loc) :=
  Node.depthFirstSearch fuel h node InOrder.

(** ** [class Tree] *)

(** A traversal strategy, [(node) => TreeNode[]]. *)
Definition strategy_fn (M : Type) : Type := nat → heap M → loc → res (list loc).

Record Tree (M : Type) : Type := mkTree {
  root : option loc;
  strategy : strategy_fn M
}.
Arguments mkTree {M} root strategy.
Arguments root {M} t.
Arguments strategy {M} t.

(** The plain nested value given to [parse]: [JAbsent] is a falsy value
    ([null], [undefined]), [JObject] an object with a [model], an optional
    [index] and an optional array [children]. *)
Inductive jsdata (M : Type) : Type :=
| JAbsent
| JObject (model : M) (index : option Z) (children : option (list (jsdata M))).
Arguments JAbsent {M}.
Arguments JObject {M} model index children.

Module Tree.
Section Methods.
Context {M V : Type} `{Model M V, EqDecision V}.

(** The arrow function given to [children.forEach] in [parseChildren]:
    [childData.model] raises a TypeError on an absent entry, and the
    recursion is guarded by [if (childData.children)]. *)
Fixpoint parseChildren_callback (parentNode : loc) (childData : jsdata M)
    (index : nat) (h : heap M) {struct childData} : res (heap M) :=
  match childData with
  | JAbsent => Err TypeError
  | JObject m _ cs =>
      let '(childNode, h) := new_TreeNode h m (Some (Z.of_nat index + 1)%Z) in
      let h := Node.addChild h parentNode (Some childNode) in
      match cs with
      | Some cs' => forEach (parseChildren_callback childNode) cs' 0 h
      | None => Ok h
      end
  end.

(** [parseChildren(parentNode, children)]: [children.forEach] raises a
    TypeError when [children] is [undefined]. *)
Definition parseChildren (h : heap M) (parentNode : loc)
    (children : option (list (jsdata M))) : res (heap M) :=
  match children with
  | None => Err TypeError
  | Some cs => forEach (parseChildren_callback parentNode) cs 0 h
  end.

(** [parse(object)]. *)
Definition parse (h : heap M) (object : jsdata M) : res (option loc * heap M) :=
  match object with
  | JAbsent => Ok (None, h)
  | JObject m i cs =>
      let '(rootNode, h) := new_TreeNode h m i in
      h ← parseChildren h rootNode cs;
      Ok (Some rootNode, h)
  end.


(** [all()]. *)
Definition all (fuel : nat) (t : Tree M) (h : heap M) : res (option (list loc)) :=
  match root t with
  | Some r => nodes ← strategy t fuel h r; Ok (Some nodes)
  | None => Ok None
  end.

(** The helper [removeFromArray] of [remove]. *)
Definition removeFromArray (arr : list loc) (nodeToRemove : loc) : list loc :=
  let index := indexOf arr nodeToRemove in
  if bool_decide (index ≠ (-1)%Z) then splice_delete arr index else arr.

(** The helper [removeFromTree] of [remove].  [forEach] reads the length of
    [currentNode.children] once and then each position from the array as it
    is at that moment, which the recursive calls may have shortened when the
    graph is not a tree. *)
Fixpoint removeFromTree (fuel : nat) (h : heap M) (currentNode nodeToRemove : loc)
    : res (heap M) :=
  match fuel with
  | 0 => Err OutOfFuel
  | S fuel' =>
      let h := set_children h currentNode
                 (removeFromArray (children_of h currentNode) nodeToRemove) in
      for_of (seq 0 (length (children_of h currentNode)))
        (fun k h =>
           match children_of h currentNode !! k with
           | Some childNode => removeFromTree fuel' h childNode nodeToRemove
           | None => Ok h
           end) h
  end.

(** [remove(node)]. *)
Definition remove (fuel : nat) (t : Tree M) (h : heap M) (node : loc)
    : res (Tree M * heap M) :=
  match root t with
  | Some r =>
      if bool_decide (r = node) then Ok (mkTree None (strategy t), h)
      else h ← removeFromTree fuel h r node; Ok (t, h)
  | None => Ok (t, h)
  end.

(** [find(predicateOrProperty, value)]. *)
Definition find (fuel : nat) (t : Tree M) (h : heap M) (pp : predicateOrProperty M V)
    : res (option loc) :=
  match root t with
  | Some r => Node.findChild fuel h r pp
  | None => Ok None
  end.

(** [move(node, newParent)]: the parent is looked up with
    [node.getParent(this.root)], the receiver being [node]. *)
Definition move (fuel : nat) (t : Tree M) (h : heap M) (node newParent : loc)
    : res (heap M) :=
  currentParent ← Node.getParent fuel h node (root t);
  let h := match currentParent with
           | Some p => Node.removeChild h p (Some node)
           | None => h
           end in
  Ok (Node.addChild h newParent (Some node)).

(** [getPath(node)]. *)
Definition getPath (fuel : nat) (t : Tree M) (h : heap M) (node : loc)
    : res (option (list loc)) :=
  match root t with
  | Some r => Node.getPath fuel h r node
  | None => Ok None
  end.

(** [getReversePath(node)]. *)
Definition getReversePath (fuel : nat) (t : Tree M) (h : heap M) (node : loc)
    : res (option (list loc)) :=
  match root t with
  | Some r => Node.getReversePath fuel h r node
  | None => Ok None
  end.

(** [walk(callback)]: the callback acts on a state [W] of the caller. *)
Definition walk {W : Type} (fuel : nat) (t : Tree M) (h : heap M)
    (callback : loc → W → W) (w : W) : res W :=
  match root t with
  | Some r =>
      nodes ← Node.depthFirstSearch fuel h r InOrder;
      Ok (foldl (fun w node => callback node w) w nodes)
  | None => Ok w
  end.

(** The loop of [insertChild]: the first node satisfying the predicate
    receives the child and the method returns. *)
Fixpoint insertChild_loop (h : heap M) (p : predicate M) (child : loc)
    (nodes : list loc) : heap M :=
  match nodes with
  | [] => h
  | node :: nodes' =>
      if p h node then Node.addChild h node (Some child)
      else insertChild_loop h p child nodes'
  end.

(** [insertChild(child, predicateOrProperty, value)]. *)
Definition insertChild (fuel : nat) (t : Tree M) (h : heap M) (child : loc)
    (pp : predicateOrProperty M V) : res (heap M) :=
  let predicate := resolve pp in
  nodes ← match root t with
          | Some r => strategy t fuel h r
          | None => Ok []
          end;
  Ok (insertChild_loop h predicate child nodes).

End Methods.
End Tree.

(** The traversals the library provides as strategies: [depthFirstSearch]
    with one of its six orders and [breadthFirstOrder]. *)
Inductive traversal : Type :=
| DepthFirst (order : Order)
| BreadthFirst.

Definition traversal_fn {M} (tr : traversal) : strategy_fn M :=
  match tr with
  | DepthFirst order => fun fuel h node => Node.depthFirstSearch fuel h node order
  | BreadthFirst => Node.breadthFirstOrder
  end.

(** ** Acyclic graphs and their unfolding *)

(** The unfolding of the graph below a node: the node and, for each entry
    of its [children] array in order, the unfolding below that child.  A
    node has an unfolding exactly when no cycle can be reached from it. *)
Inductive rose : Type :=
| Rose (label : loc) (kids : list rose).

Definition rose_root (t : rose) : loc :=
  match t with Rose n _ => n end.

Definition rose_kids (t : rose) : list rose :=
  match t with Rose _ ts => ts end.

(** Induction on an unfolding with the property at hand for every kid. *)
Section RoseInduction.
Variable P : rose → Prop.
Hypothesis step : ∀ n ts, Forall P ts → P (Rose n ts).

Fixpoint rose_ind_kids (t : rose) : P t :=
  match t with
  | Rose n ts =>
      step n ts
        ((fix go (l : list rose) : Forall P l :=
            match l with
            | [] => Forall_nil_2 P
            | k :: l' => Forall_cons_2 P k l' (rose_ind_kids k) (go l')
            end) ts)
  end.
End RoseInduction.

(** [unfolding h t]: [t] is the unfolding of the store [h] below its root. *)
Fixpoint unfolding {M} (h : heap M) (t : rose) : bool :=
  match t with
  | Rose n ts =>
      match h !! n with
      | Some nd => bool_decide (children nd = rose_root <$> ts) && forallb (unfolding h) ts
      | None => false
      end
  end.

(** All nodes of an unfolding, each as often as it occurs. *)
Fixpoint rose_nodes (t : rose) : list loc :=
  match t with
  | Rose n ts => n :: mjoin (rose_nodes <$> ts)
  end.

(** The nodes strictly below the root. *)
Definition rose_below (t : rose) : list loc :=
  mjoin (rose_nodes <$> rose_kids t).

(** The node count of an unfolding, the root included. *)
Fixpoint rose_size (t : rose) : nat :=
  match t with
  | Rose n ts => S (sum_list_with rose_size ts)
  end.

(** Children before their parent. *)
Fixpoint post_order (t : rose) : list loc :=
  match t with
  | Rose n ts => mjoin (post_order <$> ts) ++ [n]
  end.

(** The sequence [depthFirstSearch]'s helper builds on an unfolding when it
    pushes a node before its children ([pre]), after them ([post]), or both. *)
Fixpoint rose_dfs (pre post : bool) (t : rose) : list loc :=
  match t with
  | Rose n ts =>
      (if pre then [n] else []) ++ mjoin (rose_dfs pre post <$> ts)
        ++ (if post then [n] else [])
  end.

(** Whether [traverse] pushes the current node before its children. *)
Definition pushes_before (o : Order) : bool :=
  includes (order_string o) "pre-order".

(** Whether [traverse] pushes the current node after its children. *)
Definition pushes_after (o : Order) : bool :=
  if includes (order_string o) "in-order" then true
  else includes (order_string o) "post-order".

(** [c] is an entry of the [children] array of [p]. *)
Definition owns {M} (h : heap M) (p c : loc) : Prop := c ∈ children_of h p.

(** The nodes of the tree rooted at [r]: [r] and all it reaches through
    [children] arrays. *)
Definition tree_node {M} (h : heap M) (r n : loc) : Prop := rtc (owns h) r n.

(** A tree in the sense of the library's documentation: the graph below
    [r] is acyclic and no node is held by two [children] entries. *)
Definition is_tree {M} (h : heap M) (r : loc) (t : rose) : Prop :=
  unfolding h t = true ∧ rose_root t = r ∧ NoDup (rose_nodes t).

(** The three orders of which the other three are the reversals. *)
Inductive BaseOrder : Type :=
| BasePre
| BasePost
| BaseIn.

Definition forward (x : BaseOrder) : Order :=
  match x with
  | BasePre => PreOrder
  | BasePost => PostOrder
  | BaseIn => InOrder
  end.

Definition reversed (x : BaseOrder) : Order :=
  match x with
  | BasePre => ReversePreOrder
  | BasePost => ReversePostOrder
  | BaseIn => ReverseInOrder
  end.

(** An unfolding without the kids whose root is [node], at every depth. *)
Fixpoint rose_prune (node : loc) (t : rose) : rose :=
  match t with
  | Rose n ts =>
      Rose n (filter (fun k => rose_root k ≠ node) (rose_prune node <$> ts))
  end.

(** The nodes of a list of unfoldings level by level, [d] levels deep: the
    roots, then the roots of their kids, and so on. *)
Fixpoint levels (d : nat) (ts : list rose) : list loc :=
  match d with
  | 0 => []
  | S d' => (rose_root <$> ts) ++ levels d' (ts ≫= rose_kids)
  end.

(** An unfolding with the leaf [c] added as last kid below every
    occurrence of the node [n]. *)
Fixpoint rose_graft (n c : loc) (t : rose) : rose :=
  match t with
  | Rose m ts =>
      Rose m ((rose_graft n c <$> ts)
                ++ (if bool_decide (m = n) then [Rose c []] else []))
  end.

(** ** Paths *)

(** The first answer of [f] along a list. *)
Definition first_some {A B : Type} (f : A → option B) : list A → option B :=
  fix go (l : list A) : option B :=
    match l with
    | [] => None
    | x :: l' =>
        match f x with
        | Some b => Some b
        | None => go l'
        end
    end.

(** The path the depth-first search with backtracking of [getPath] finds in
    an unfolding: the first one in pre-order from the root to [target]. *)
Fixpoint rose_path (target : loc) (t : rose) : option (list loc) :=
  match t with
  | Rose n ts =>
      if bool_decide (n = target) then Some [n]
      else match first_some (rose_path target) ts with
           | Some p => Some (n :: p)
           | None => None
           end
  end.

(** Every node of the list holds the next one in its [children]. *)
Fixpoint linked {M} (h : heap M) (p : list loc) : Prop :=
  match p with
  | a :: (b :: _) as rest => owns h a b ∧ linked h rest
  | _ => True
  end.

(** A predicate that reads nothing but the models of the nodes, as every
    property/value pair does: it gives the same answer in two stores whose
    nodes carry the same models. *)
Definition model_only {M} (p : predicate M) : Prop :=
  ∀ (h h' : heap M) c,
    (∀ n, model <$> (h !! n) = model <$> (h' !! n)) → p h c = p h' c.

(** ** Inputs of [parse] *)

(** Induction on an input with the property at hand for every entry of its
    [children]. *)
Section JsdataInduction.
Context {M : Type}.
Variable P : jsdata M → Prop.
Hypothesis absent : P JAbsent.
Hypothesis leaf : ∀ m i, P (JObject m i None).
Hypothesis inner : ∀ m i cs, Forall P cs → P (JObject m i (Some cs)).

Fixpoint jsdata_ind_entries (d : jsdata M) : P d :=
  match d with
  | JAbsent => absent
  | JObject m i None => leaf m i
  | JObject m i (Some cs) =>
      inner m i cs
        ((fix go (l : list (jsdata M)) : Forall P l :=
            match l with
            | [] => Forall_nil_2 P
            | e :: l' => Forall_cons_2 P e l' (jsdata_ind_entries e) (go l')
            end) cs)
  end.
End JsdataInduction.

(** An entry of a [children] array that is an object whose own entries, at
    every depth, are objects too. *)
Fixpoint entries_present {M} (d : jsdata M) : bool :=
  match d with
  | JAbsent => false
  | JObject _ _ None => true
  | JObject _ _ (Some cs) => forallb entries_present cs
  end.

(** [h'] has every node of [h], with the model and index it had. *)
Definition keeps_fields {M} (h h' : heap M) : Prop :=
  ∀ n nd, h !! n = Some nd →
    ∃ cs, h' !! n = Some (mkTreeNode (model nd) (index nd) cs).

(** [P d i k] for the entries [d] of a list, the locations [k] of a list
    of the same length and the positions [i] counted from a start. *)
Definition all_indexed {A : Type} (P : A → nat → loc → Prop)
    : list A → list loc → nat → Prop :=
  fix go (ds : list A) (ks : list loc) (i : nat) : Prop :=
    match ds, ks with
    | [], [] => True
    | d :: ds', k :: ks' => P d i k ∧ go ds' ks' (S i)
    | _, _ => False
    end.

(** [built h avoid d idx n]: the node [n] of the store [h] stands for the
    input [d]: it is outside [avoid], carries the model of [d] and the index
    [idx], and its children stand, in order, for the entries of the
    [children] of [d], each with its position counted from one as index;
    an input without [children] gives a node without children. *)
Fixpoint built {M} (h : heap M) (avoid : gset loc) (d : jsdata M)
    (idx : option Z) (n : loc) : Prop :=
  match d with
  | JAbsent => False
  | JObject m _ cs =>
      (n ∉ avoid) ∧
      ∃ kids, h !! n = Some (mkTreeNode m idx kids) ∧
        match cs with
        | Some l =>
            all_indexed
              (fun e i k => built h avoid e (Some (Z.of_nat i + 1)%Z) k) l kids 0
        | None => kids = []
        end
  end.

(** [h'] is [h] with [cs] pushed onto the children of [p], and possibly
    with nodes that [h] does not have. *)
Definition grows_at {M} (h h' : heap M) (p : loc) (cs : list loc) : Prop :=
  (∀ pnd, h !! p = Some pnd →
     h' !! p = Some (mkTreeNode (model pnd) (index pnd) (children pnd ++ cs))) ∧
  (∀ n, n ∈ dom h → n ≠ p → h' !! n = h !! n).

(** What the callback of [parseChildren] does for an entry [d] at position
    [i]: it pushes one fresh node onto the children of the parent, and that
    node stands for [d] with index [i + 1]. *)
Definition callback_builds {M} (d : jsdata M) : Prop :=
  ∀ parentNode i (h : heap M),
    entries_present d = true → is_Some (h !! parentNode) →
    ∃ h' c, Tree.parseChildren_callback parentNode d i h = Ok h' ∧
            grows_at h h' parentNode [c] ∧
            built h' (dom h) d (Some (Z.of_nat i + 1)%Z) c.

(** The number of objects of an input. *)
Fixpoint data_size {M} (d : jsdata M) : nat :=
  match d with
  | JAbsent => 0
  | JObject _ _ None => 1
  | JObject _ _ (Some l) => S (sum_list_with data_size l)
  end.

(** The graph the callback of [parseChildren] makes for an entry [d]: the
    node it pushes onto the children of the parent is the root of a tree of
    nodes that were not in the store before, one for each object of [d]. *)
Definition callback_tree {M} (d : jsdata M) : Prop :=
  ∀ parentNode i (h : heap M),
    entries_present d = true → is_Some (h !! parentNode) →
    ∃ h' t, Tree.parseChildren_callback parentNode d i h = Ok h' ∧
            grows_at h h' parentNode [rose_root t] ∧
            unfolding h' t = true ∧ NoDup (rose_nodes t) ∧
            (∀ x, x ∈ rose_nodes t → x ∈ dom h' ∧ x ∉ dom h) ∧
            rose_size t = data_size d.

(** A node from which a cycle of [children] references can be reached. *)
Definition reaches_cycle {M} (h : heap M) (n : loc) : Prop :=
  ∃ m, rtc (owns h) n m ∧ tc (owns h) m m.

(** ** The tree of the test suite *)

Module Sample.

(** The model of the tests, [{ id, name, data: { value } }]. *)
Record model_t : Type := mkModel {
  id : Z;
  name : string;
  value : Z
}.

(** A property value: a number, a string, or [undefined] for a property
    the model does not have. *)
Inductive prop_value : Type :=
| VNum (z : Z)
| VStr (s : string)
| VUndefined.

#[global] Instance prop_value_eq_dec : EqDecision prop_value.
Proof. solve_decision. Defined.

#[global] Instance sample_model : Model model_t prop_value := fun m key =>
  if bool_decide (key = "id"%string) then VNum (id m)
  else if bool_decide (key = "name"%string) then VStr (name m)
  else VUndefined.

Definition rootNode : loc := 0.
Definition child1 : loc := 1.
Definition child2 : loc := 2.
Definition grandchild1 : loc := 3.

(** [root -> [child1 -> [grandchild1], child2]]. *)
Definition store : heap model_t :=
  <[rootNode := mkTreeNode (mkModel 0 "root" 10) (Some 0%Z) [child1; child2]]>
  (<[child1 := mkTreeNode (mkModel 1 "child1" 20) (Some 1%Z) [grandchild1]]>
  (<[child2 := mkTreeNode (mkModel 2 "child2" 30) (Some 2%Z) []]>
  (<[grandchild1 := mkTreeNode (mkModel 3 "grandchild1" 40) (Some 1%Z) []]> ∅))).

Definition tree : Tree model_t := mkTree (Some rootNode) defaultTraversalStrategy.

Definition shape : rose :=
  Rose rootNode [Rose child1 [Rose grandchild1 []]; Rose child2 []].

(** A tree without a root, next to two nodes that belong to no tree. *)
Definition empty_tree : Tree model_t := mkTree None defaultTraversalStrategy.

Definition loose : heap model_t :=
  <[child1 := mkTreeNode (mkModel 1 "child1" 20) (Some 1%Z) []]>
  (<[child2 := mkTreeNode (mkModel 2 "child2" 30) (Some 2%Z) []]> ∅).

(** The store after [tree.move(grandchild1, child2)]. *)
Definition store_moved : heap model_t :=
  <[child2 := mkTreeNode (mkModel 2 "child2" 30) (Some 2%Z) [grandchild1]]> store.

(** Its unfolding: [grandchild1] occurs below [child1] and below [child2]. *)
Definition shape_moved : rose :=
  Rose rootNode [Rose child1 [Rose grandchild1 []]; Rose child2 [Rose grandchild1 []]].

(** The store [loose] after [empty_tree.move(child1, child2)]. *)
Definition loose_moved : heap model_t :=
  <[child2 := mkTreeNode (mkModel 2 "child2" 30) (Some 2%Z) [child1]]> loose.

(** The store after [child2.addChild(rootNode)]: a cycle through the root. *)
Definition cyclic : heap model_t :=
  <[child2 := mkTreeNode (mkModel 2 "child2" 30) (Some 2%Z) [rootNode]]> store.

(** The store with one more node, in no [children] array. *)
Definition newNode : loc := 4.

Definition store_new : heap model_t :=
  <[newNode := mkTreeNode (mkModel 4 "newNode" 50) (Some 1%Z) []]> store.

(** The input of the test suite. *)
Definition input_children : list (jsdata model_t) :=
  [JObject (mkModel 1 "child1" 20) (Some 1%Z)
     (Some [JObject (mkModel 3 "grandchild1" 40) (Some 1%Z) (Some [])]);
   JObject (mkModel 2 "child2" 30) (Some 2%Z) (Some [])].

Definition input : jsdata model_t :=
  JObject (mkModel 0 "root" 10) (Some 0%Z) (Some input_children).

(** The input of [parse] with a model and no [children] entry. *)
Definition leaf_input : jsdata model_t :=
  JObject (mkModel 0 "root" 10) (Some 0%Z) None.

(** The predicate [(node) => node.model.name === key]. *)
Definition named (key : string) : predicate model_t := fun h node =>
  match h !! node with
  | Some nd => bool_decide (name (model nd) = key)
  | None => false
  end.

(** The predicate [(node) => node === target]. *)
Definition same_node (target : loc) : predicate model_t := fun _ node =>
  bool_decide (node = target).

End Sample.

(** * Properties *)

(** ** The expectations of the test suite *)

Example test_all : Tree.all 4 Sample.tree Sample.store
  = Ok (Some [Sample.grandchild1; Sample.child1; Sample.child2; Sample.rootNode]).
Proof. reflexivity. Qed.

Example test_remove :
  ('(t, h) ← Tree.remove 4 Sample.tree Sample.store Sample.child1; Tree.all 4 t h)
  = Ok (Some [Sample.child2; Sample.rootNode]).
Proof. by vm_compute. Qed.

Example test_find :
  Tree.find (V := Sample.prop_value) 4 Sample.tree Sample.store
    (Predicate (Sample.named "child2")) = Ok (Some Sample.child2) ∧
  Tree.find 4 Sample.tree Sample.store (Property "name" (Sample.VStr "grandchild1"))
    = Ok (Some Sample.grandchild1).
Proof. split; by vm_compute. Qed.

Example test_getPath :
  Tree.getPath 4 Sample.tree Sample.store Sample.grandchild1
    = Ok (Some [Sample.rootNode; Sample.child1; Sample.grandchild1]) ∧
  Tree.getReversePath 4 Sample.tree Sample.store Sample.grandchild1
    = Ok (Some [Sample.grandchild1; Sample.child1; Sample.rootNode]).
Proof. split; by vm_compute. Qed.

Example test_getParent :
  Node.getParent 4 Sample.store Sample.rootNode (Some Sample.grandchild1)
    = Ok (Some Sample.child1).
Proof. by vm_compute. Qed.

Example test_depthFirstSearch :
  Node.depthFirstSearch 4 Sample.store Sample.rootNode PreOrder
    = Ok [Sample.rootNode; Sample.child1; Sample.grandchild1; Sample.child2] ∧
  Node.depthFirstSearch 4 Sample.store Sample.rootNode ReversePreOrder
    = Ok [Sample.child2; Sample.grandchild1; Sample.child1; Sample.rootNode].
Proof. split; by vm_compute. Qed.

Example test_breadthFirstOrder :
  Node.breadthFirstOrder 4 Sample.store Sample.rootNode
    = Ok [Sample.rootNode; Sample.child1; Sample.child2; Sample.grandchild1].
Proof. by vm_compute. Qed.

Example test_parse_leaf_input :
  Tree.parse ∅ Sample.leaf_input = Err TypeError.
Proof. reflexivity. Qed.

(** ** Unfoldings *)

Section Unfolding.
Context {M : Type}.
Implicit Types (h : heap M) (t : rose) (n : loc).

Lemma unfolding_Rose h n ts :
  unfolding h (Rose n ts) = true ↔
  ∃ nd, h !! n = Some nd ∧ children nd = rose_root <$> ts ∧
        Forall (fun k => unfolding h k = true) ts.
Proof.
  cbn [unfolding]. split.
  - destruct (h !! n) as [nd|]; [|done].
    intros [Hc Hk]%andb_true_iff. exists nd.
    apply bool_decide_eq_true in Hc.
    split_and!; [done..|]. apply Forall_forall. intros k Hin.
    rewrite forallb_forall in Hk. by apply Hk, list_elem_of_In.
  - intros (nd & -> & Hc & Hk). apply andb_true_iff. split.
    + by apply bool_decide_eq_true.
    + apply forallb_forall. intros k Hin.
      rewrite Forall_forall in Hk. by apply Hk, list_elem_of_In.
Qed.

Lemma unfolding_children h n ts :
  unfolding h (Rose n ts) = true → children_of h n = rose_root <$> ts.
Proof.
  intros (nd & Hn & Hc & _)%unfolding_Rose. unfold children_of. by rewrite Hn.
Qed.

Lemma unfolding_kids h n ts :
  unfolding h (Rose n ts) = true → Forall (fun k => unfolding h k = true) ts.
Proof. by intros (nd & _ & _ & Hk)%unfolding_Rose. Qed.

Lemma rose_size_kid k ts : k ∈ ts → rose_size k ≤ sum_list_with rose_size ts.
Proof. apply sum_list_with_in. Qed.

Lemma rose_size_pos t : 0 < rose_size t.
Proof. destruct t; simpl; lia. Qed.

(** A store has at most one unfolding below a node. *)
Lemma unfolding_unique h t : ∀ s,
  unfolding h t = true → unfolding h s = true → rose_root t = rose_root s → t = s.
Proof.
  induction t as [n ts IH] using rose_ind_kids. intros [m ss] Ht Hs Hr.
  simpl in Hr. subst m. f_equal.
  pose proof (unfolding_children _ _ _ Ht) as Hc.
  rewrite (unfolding_children _ _ _ Hs) in Hc.
  apply unfolding_kids in Ht, Hs.
  clear n. revert ss Hs Hc.
  induction ts as [|k ts IHts]; intros [|k' ss] Hs Hc; simplify_eq/=; [done|].
  inversion IH; inversion Ht; inversion Hs; subst.
  f_equal; [by eauto | by eapply IHts].
Qed.

Lemma elem_of_rose_nodes n r ts :
  n ∈ rose_nodes (Rose r ts) ↔ n = r ∨ ∃ k, k ∈ ts ∧ n ∈ rose_nodes k.
Proof.
  cbn [rose_nodes]. rewrite elem_of_cons, list_elem_of_join.
  split; (intros [?|Hn]; [by left|right]).
  - destruct Hn as (l & Hl & (k & -> & Hk)%list_elem_of_fmap). eauto.
  - destruct Hn as (k & Hk & Hn). exists (rose_nodes k).
    split; [done|]. apply list_elem_of_fmap. eauto.
Qed.

Lemma elem_of_rose_below n t :
  n ∈ rose_below t ↔ ∃ k, k ∈ rose_kids t ∧ n ∈ rose_nodes k.
Proof.
  unfold rose_below. rewrite list_elem_of_join. split.
  - intros (l & Hl & (k & -> & Hk)%list_elem_of_fmap). eauto.
  - intros (k & Hk & Hn). exists (rose_nodes k).
    split; [done|]. apply list_elem_of_fmap. eauto.
Qed.

Lemma rose_nodes_root_below t : rose_nodes t = rose_root t :: rose_below t.
Proof. by destruct t. Qed.

Lemma rose_root_elem t : rose_root t ∈ rose_nodes t.
Proof. rewrite rose_nodes_root_below. left. Qed.

Lemma length_rose_nodes t : length (rose_nodes t) = rose_size t.
Proof.
  induction t as [n ts IH] using rose_ind_kids. cbn [rose_nodes rose_size length].
  f_equal. induction IH as [|k ts Hk _ IHts]; [done|].
  csimpl. by rewrite length_app, Hk, IHts.
Qed.

(** The kid of an unfolding that stands for a given child. *)
Lemma unfolding_kid_of h n ts c :
  unfolding h (Rose n ts) = true → owns h n c →
  ∃ k, k ∈ ts ∧ rose_root k = c ∧ unfolding h k = true.
Proof.
  intros Ht Hc. unfold owns in Hc.
  rewrite (unfolding_children _ _ _ Ht) in Hc.
  apply list_elem_of_fmap in Hc as (k & -> & Hk). exists k.
  split_and!; [done..|].
  apply unfolding_kids in Ht. rewrite Forall_forall in Ht. by apply Ht.
Qed.

Lemma unfolding_owns_kid h n ts k :
  unfolding h (Rose n ts) = true → k ∈ ts → owns h n (rose_root k).
Proof.
  intros Ht Hk. unfold owns. rewrite (unfolding_children _ _ _ Ht).
  apply list_elem_of_fmap. eauto.
Qed.

(** The nodes of an unfolding are the nodes reached from its root. *)
Lemma rose_nodes_reach h t n :
  unfolding h t = true → n ∈ rose_nodes t ↔ tree_node h (rose_root t) n.
Proof.
  intros Ht. split.
  - revert Ht. induction t as [r ts IH] using rose_ind_kids. intros Ht.
    intros [->|(k & Hk & Hn)]%elem_of_rose_nodes; [apply rtc_refl|].
    simpl. eapply rtc_l; [by eapply unfolding_owns_kid|].
    rewrite Forall_forall in IH. apply IH; [done| |done].
    apply unfolding_kids in Ht. rewrite Forall_forall in Ht. by apply Ht.
  - intros Hr. remember (rose_root t) as r eqn:Er. revert t Er Ht.
    induction Hr as [r|r c n Hc Hr IH]; intros t -> Ht.
    + apply rose_root_elem.
    + destruct t as [r ts]. simpl in Hc.
      destruct (unfolding_kid_of _ _ _ _ Ht Hc) as (k & Hk & Ek & Hu).
      apply elem_of_rose_nodes. right. exists k. split; [done|].
      by apply IH.
Qed.

(** The nodes strictly below the root are those reached in one step or more. *)
Lemma rose_below_reach h t n :
  unfolding h t = true → n ∈ rose_below t ↔ tc (owns h) (rose_root t) n.
Proof.
  intros Ht. destruct t as [r ts]. rewrite elem_of_rose_below. simpl. split.
  - intros (k & Hk & Hn). eapply tc_rtc_r.
    + apply tc_once. by eapply unfolding_owns_kid.
    + apply rose_nodes_reach; [|done].
      apply unfolding_kids in Ht. rewrite Forall_forall in Ht. by apply Ht.
  - intros Htc. apply tc_rtc in Htc as Hr.
    inversion Htc as [? ? Hc|? c ? Hc Hcn]; subst.
    + destruct (unfolding_kid_of _ _ _ _ Ht Hc) as (k & Hk & <- & Hu).
      exists k. split; [done|]. apply rose_root_elem.
    + destruct (unfolding_kid_of _ _ _ _ Ht Hc) as (k & Hk & <- & Hu).
      exists k. split; [done|]. apply (rose_nodes_reach h); [done|].
      by apply tc_rtc.
Qed.

(** Every node of an unfolding has its own unfolding, which is smaller
    when the node lies strictly below the root. *)
Lemma unfolding_below h t n :
  unfolding h t = true → n ∈ rose_below t →
  ∃ s, unfolding h s = true ∧ rose_root s = n ∧ rose_size s < rose_size t.
Proof.
  induction t as [r ts IH] using rose_ind_kids. intros Ht.
  intros (k & Hk & Hn)%elem_of_rose_below. simpl in Hk.
  pose proof (rose_size_kid _ _ Hk) as Hsz.
  assert (unfolding h k = true) as Hu.
  { apply unfolding_kids in Ht. rewrite Forall_forall in Ht. by apply Ht. }
  rewrite rose_nodes_root_below in Hn. apply elem_of_cons in Hn as [->|Hn].
  - exists k. split_and!; [done..|]. simpl. lia.
  - rewrite Forall_forall in IH.
    destruct (IH k Hk Hu Hn) as (s & Hs & Hr & Hlt).
    exists s. split_and!; [done..|]. simpl. lia.
Qed.

Lemma unfolding_at h t n :
  unfolding h t = true → n ∈ rose_nodes t →
  ∃ s, unfolding h s = true ∧ rose_root s = n ∧ rose_size s ≤ rose_size t.
Proof.
  intros Ht. rewrite rose_nodes_root_below. intros [->|Hn]%elem_of_cons.
  - by exists t.
  - destruct (unfolding_below _ _ _ Ht Hn) as (s & ? & ? & ?).
    exists s. split_and!; [done..|lia].
Qed.

(** No node of an acyclic graph lies below itself. *)
Lemma unfolding_acyclic h t :
  unfolding h t = true → rose_root t ∉ rose_below t.
Proof.
  intros Ht Hin.
  destruct (unfolding_below _ _ _ Ht Hin) as (s & Hs & Hr & Hlt).
  rewrite (unfolding_unique _ _ _ Hs Ht Hr) in Hlt. lia.
Qed.

Lemma unfolding_no_cycle h t n :
  unfolding h t = true → tree_node h (rose_root t) n → ¬ tc (owns h) n n.
Proof.
  intros Ht Hn Hcyc. apply (rose_nodes_reach _ _ _ Ht) in Hn.
  destruct (unfolding_at _ _ _ Ht Hn) as (s & Hs & <- & _).
  apply (unfolding_acyclic _ _ Hs). by apply (rose_below_reach h).
Qed.

End Unfolding.

(** ** The traversals on an acyclic graph *)

Section Traversals.
Context {M : Type}.
Implicit Types (h : heap M) (t : rose) (n : loc).

Lemma rose_dfs_pre t : rose_dfs true false t = rose_nodes t.
Proof.
  induction t as [n ts IH] using rose_ind_kids. cbn [rose_dfs rose_nodes].
  rewrite app_nil_r. simpl. f_equal. f_equal.
  induction IH as [|k ts Hk _ IHts]; [done|]. csimpl. by rewrite Hk, IHts.
Qed.

Lemma rose_dfs_post t : rose_dfs false true t = post_order t.
Proof.
  induction t as [n ts IH] using rose_ind_kids. cbn [rose_dfs post_order].
  simpl. f_equal. f_equal.
  induction IH as [|k ts Hk _ IHts]; [done|]. csimpl. by rewrite Hk, IHts.
Qed.

Lemma post_order_Permutation t : post_order t ≡ₚ rose_nodes t.
Proof.
  induction t as [n ts IH] using rose_ind_kids. cbn [post_order rose_nodes].
  rewrite <-Permutation_cons_append. constructor.
  induction IH as [|k ts Hk _ IHts]; [done|]. csimpl. by rewrite Hk, IHts.
Qed.

Lemma traverse_step fuel h o n result :
  Node.depthFirstSearch_traverse (S fuel) h o n result =
  (result' ← for_of (children_of h n) (Node.depthFirstSearch_traverse fuel h o)
                (if pushes_before o then result ++ [n] else result);
   Ok (if pushes_after o then result' ++ [n] else result')).
Proof.
  cbn [Node.depthFirstSearch_traverse]. unfold pushes_before, pushes_after.
  destruct (for_of _ _ _) as [r|e]; [|done]. simpl.
  by destruct (includes (order_string o) "in-order").
Qed.

(** On an acyclic graph, [traverse] appends the depth-first sequence of the
    unfolding to [result], given fuel for the node count. *)
Lemma traverse_unfolding h o t : ∀ fuel result,
  unfolding h t = true → rose_size t ≤ fuel →
  Node.depthFirstSearch_traverse fuel h o (rose_root t) result =
  Ok (result ++ rose_dfs (pushes_before o) (pushes_after o) t).
Proof.
  induction t as [n ts IH] using rose_ind_kids. intros fuel result Ht Hsz.
  destruct fuel as [|fuel]; [simpl in Hsz; lia|].
  cbn [rose_root]. rewrite traverse_step, (unfolding_children _ _ _ Ht).
  apply unfolding_kids in Ht. simpl in Hsz. apply le_S_n in Hsz.
  cbn [rose_dfs].
  set (start := if pushes_before o then result ++ [n] else result).
  assert (for_of (rose_root <$> ts) (Node.depthFirstSearch_traverse fuel h o) start
          = Ok (start ++ mjoin (rose_dfs (pushes_before o) (pushes_after o) <$> ts)))
    as ->.
  { clearbody start. clear result. revert start Ht Hsz.
    induction IH as [|k ts Hk _ IHts]; intros start Ht Hsz.
    - simpl. by rewrite app_nil_r.
    - inversion Ht; subst. simpl in Hsz. csimpl.
      rewrite Hk; [|done|lia]. simpl.
      rewrite IHts; [|done|lia]. by rewrite (assoc_L (++)). }
  simpl. f_equal. subst start.
  destruct (pushes_before o), (pushes_after o);
    by rewrite ?app_nil_r, <-?(assoc_L (++)).
Qed.

Lemma depthFirstSearch_unfolding h (x : BaseOrder) t fuel :
  unfolding h t = true → rose_size t ≤ fuel →
  Node.depthFirstSearch fuel h (rose_root t) (forward x) =
    Ok (rose_dfs (pushes_before (forward x)) (pushes_after (forward x)) t) ∧
  Node.depthFirstSearch fuel h (rose_root t) (reversed x) =
    Ok (reverse (rose_dfs (pushes_before (forward x)) (pushes_after (forward x)) t)).
Proof.
  intros Ht Hsz. unfold Node.depthFirstSearch.
  rewrite !traverse_unfolding by done. by destruct x.
Qed.

(** The loop of [breadthFirstOrder] empties a queue of acyclic nodes and
    appends each node of their unfoldings once per occurrence. *)
Lemma breadthFirstOrder_loop_unfolding h : ∀ fuel ts result,
  Forall (fun k => unfolding h k = true) ts →
  sum_list_with rose_size ts ≤ fuel →
  ∃ l, Node.breadthFirstOrder_loop fuel h (rose_root <$> ts) result = Ok (result ++ l) ∧
       l ≡ₚ mjoin (rose_nodes <$> ts).
Proof.
  induction fuel as [|fuel IH]; intros ts result Hts Hsz.
  - destruct ts as [|k ts].
    + exists []. by rewrite app_nil_r.
    + pose proof (rose_size_pos k). simpl in Hsz. lia.
  - destruct ts as [|[n ks] ts].
    + exists []. by rewrite app_nil_r.
    + inversion Hts as [|? ? Hk Hts']; subst.
      csimpl. rewrite (unfolding_children _ _ _ Hk), <-fmap_app.
      destruct (IH (ts ++ ks) (result ++ [n])) as (l & -> & Hl).
      * apply Forall_app. split; [done|]. by eapply unfolding_kids.
      * rewrite sum_list_with_app. simpl in Hsz. lia.
      * exists (n :: l). split; [by rewrite <-(assoc_L (++))|].
        rewrite Hl, fmap_app, join_app. constructor. apply Permutation_app_comm.
Qed.

Lemma breadthFirstOrder_loop_more_fuel h : ∀ fuel fuel' queue result l,
  fuel ≤ fuel' →
  Node.breadthFirstOrder_loop fuel h queue result = Ok l →
  Node.breadthFirstOrder_loop fuel' h queue result = Ok l.
Proof.
  induction fuel as [|fuel IH]; intros fuel' queue result l Hle Hl.
  - destruct queue; [|done]. by destruct fuel'.
  - destruct fuel' as [|fuel']; [lia|]. destruct queue as [|c queue]; [done|].
    simpl in *. eapply IH; [lia|done].
Qed.

Lemma breadthFirstOrder_unfolding h t :
  unfolding h t = true →
  ∃ l, l ≡ₚ rose_nodes t ∧
       ∀ fuel, rose_size t ≤ fuel → Node.breadthFirstOrder fuel h (rose_root t) = Ok l.
Proof.
  intros Ht.
  destruct (breadthFirstOrder_loop_unfolding h (rose_size t) [t] []) as (l & Hl & Hp).
  - by constructor.
  - simpl. lia.
  - exists l. split.
    + csimpl in Hp. by rewrite app_nil_r in Hp.
    + intros fuel Hsz. by eapply breadthFirstOrder_loop_more_fuel.
Qed.

End Traversals.

(** ** The searches on an acyclic graph *)

Section Searches.
Context {M V : Type} `{Model M V, EqDecision V}.
Implicit Types (h : heap M) (t : rose) (n : loc).

Lemma find_app_first {A} (p : A → bool) (l1 l2 : list A) :
  List.find p (l1 ++ l2) =
  match List.find p l1 with
  | Some x => Some x
  | None => List.find p l2
  end.
Proof. induction l1 as [|x l1 IH]; simpl; [done|]. by destruct (p x). Qed.

Lemma find_none_iff {A} (p : A → bool) (l : list A) :
  List.find p l = None ↔ ∀ x, x ∈ l → p x = false.
Proof.
  split.
  - intros Hf x Hx. eapply find_none; [done|]. by apply list_elem_of_In.
  - intros Hl. induction l as [|x l IH]; simpl; [done|].
    rewrite (Hl x) by left. apply IH. intros y Hy. apply Hl. by right.
Qed.

Lemma find_some_elem {A} (p : A → bool) (l : list A) x :
  List.find p l = Some x → x ∈ l ∧ p x = true.
Proof. intros [Hx Hp]%find_some. split; [by apply list_elem_of_In|done]. Qed.

(** A loop that returns the first answer of its body, where the body on
    each child answers the first match within the unfolding of that child,
    answers the first match within all of them. *)
Lemma for_of_return_kids (p : loc → bool) (body : loc → res (option loc)) ts :
  Forall (fun k => body (rose_root k) = Ok (List.find p (rose_nodes k))) ts →
  for_of_return (rose_root <$> ts) body = Ok (List.find p (mjoin (rose_nodes <$> ts))).
Proof.
  induction 1 as [|k ts Hk _ IH]; [done|]. csimpl.
  rewrite Hk, find_app_first. simpl.
  by destruct (List.find p (rose_nodes k)).
Qed.

(** [findChild] answers the first node strictly below [this], in pre-order,
    that satisfies the predicate. *)
Lemma findChild_unfolding h t : ∀ fuel (pp : predicateOrProperty M V),
  unfolding h t = true → rose_size t ≤ fuel →
  Node.findChild fuel h (rose_root t) pp = Ok (List.find (resolve pp h) (rose_below t)).
Proof.
  induction t as [n ts IH] using rose_ind_kids. intros fuel pp Ht Hsz.
  destruct fuel as [|fuel]; [simpl in Hsz; lia|].
  cbn [Node.findChild rose_root]. rewrite (unfolding_children _ _ _ Ht).
  apply for_of_return_kids.
  apply unfolding_kids in Ht. simpl in Hsz. apply le_S_n in Hsz.
  rewrite Forall_forall in IH, Ht. apply Forall_forall. intros k Hk.
  pose proof (rose_size_kid _ _ Hk).
  rewrite rose_nodes_root_below. simpl.
  destruct (resolve pp h (rose_root k)); [done|].
  rewrite IH; [done..|by apply Ht|lia].
Qed.

(** [getParent] answers the first node strictly below [this], in pre-order,
    whose [children] array holds [child]; [this] is not among them. *)
Lemma getParent_unfolding h t c : ∀ fuel,
  unfolding h t = true → rose_size t ≤ fuel →
  Node.getParent fuel h (rose_root t) (Some c) =
  Ok (List.find (fun q => bool_decide (c ∈ children_of h q)) (rose_below t)).
Proof.
  induction t as [n ts IH] using rose_ind_kids. intros fuel Ht Hsz.
  destruct fuel as [|fuel]; [simpl in Hsz; lia|].
  cbn [Node.getParent rose_root]. rewrite (unfolding_children _ _ _ Ht).
  apply for_of_return_kids.
  apply unfolding_kids in Ht. simpl in Hsz. apply le_S_n in Hsz.
  rewrite Forall_forall in IH, Ht. apply Forall_forall. intros k Hk.
  pose proof (rose_size_kid _ _ Hk).
  rewrite rose_nodes_root_below. simpl.
  destruct (bool_decide (c ∈ children_of h (rose_root k))); [done|].
  rewrite IH; [done..|by apply Ht|lia].
Qed.

(** No acyclic graph makes [getParent] answer its receiver. *)
Lemma getParent_never_this h t fuel child :
  unfolding h t = true → rose_size t ≤ fuel →
  Node.getParent fuel h (rose_root t) child ≠ Ok (Some (rose_root t)).
Proof.
  intros Ht Hsz. destruct child as [c|]; [|by destruct fuel].
  rewrite getParent_unfolding by done. intros [= [Hin _]%find_some_elem].
  by eapply unfolding_acyclic.
Qed.

(** *** Single ownership *)

Lemma NoDup_join_elem {A} (ls : list (list A)) l :
  NoDup (mjoin ls) → l ∈ ls → NoDup l.
Proof.
  induction ls as [|l' ls IH]; [by intros _ ?%elem_of_nil|]. csimpl.
  intros (Hl' & _ & Hls)%NoDup_app [->|Hl]%elem_of_cons; [done|by apply IH].
Qed.

(** Two segments of a duplicate-free concatenation that share an element
    are the same segment. *)
Lemma NoDup_join_same {A} (ls : list (list A)) l1 l2 x :
  NoDup (mjoin ls) → l1 ∈ ls → l2 ∈ ls → x ∈ l1 → x ∈ l2 → l1 = l2.
Proof.
  induction ls as [|l ls IH]; [by intros _ ?%elem_of_nil|]. csimpl.
  intros (_ & Hdisj & Hls)%NoDup_app.
  intros [->|H1]%elem_of_cons [->|H2]%elem_of_cons Hx1 Hx2; [done| | |by apply IH].
  - destruct (Hdisj x Hx1). apply list_elem_of_join. eauto.
  - destruct (Hdisj x Hx2). apply list_elem_of_join. eauto.
Qed.

Lemma NoDup_rose_kid n ts k :
  NoDup (rose_nodes (Rose n ts)) → k ∈ ts → NoDup (rose_nodes k).
Proof.
  cbn [rose_nodes]. intros [_ Hnd]%NoDup_cons Hk.
  eapply NoDup_join_elem; [done|]. apply list_elem_of_fmap. eauto.
Qed.

(** What a node of the graph owns lies strictly below the root. *)
Lemma owned_below h t q c :
  unfolding h t = true → q ∈ rose_nodes t → owns h q c → c ∈ rose_below t.
Proof.
  intros Ht Hq Hown. apply (rose_below_reach h); [done|].
  eapply tc_rtc_l; [by apply (rose_nodes_reach h t)|]. by apply tc_once.
Qed.

(** In a tree, a node has one owner at most. *)
Lemma owner_unique h t c : ∀ q1 q2,
  unfolding h t = true → NoDup (rose_nodes t) →
  q1 ∈ rose_nodes t → q2 ∈ rose_nodes t → owns h q1 c → owns h q2 c → q1 = q2.
Proof.
  induction t as [r ts IH] using rose_ind_kids. intros q1 q2 Ht Hnd Hq1 Hq2 Ho1 Ho2.
  assert (∀ k, k ∈ ts → unfolding h k = true) as Hkids.
  { intros k Hk. apply unfolding_kids in Ht. rewrite Forall_forall in Ht. by apply Ht. }
  assert (NoDup (mjoin (rose_nodes <$> ts))) as Hjoin
    by (cbn [rose_nodes] in Hnd; by apply NoDup_cons in Hnd as [_ ?]).
  (* the root and a node of a kid cannot own the same node *)
  assert (∀ q k, k ∈ ts → q ∈ rose_nodes k → owns h r c → owns h q c → False)
    as Hroot.
  { intros q k Hk Hq Hor Hoq.
    destruct (unfolding_kid_of _ _ _ _ Ht Hor) as (k' & Hk' & <- & Hu').
    pose proof (owned_below h k q _ (Hkids k Hk) Hq Hoq) as Hbelow.
    assert (rose_nodes k' = rose_nodes k) as Hsame.
    { apply (NoDup_join_same (rose_nodes <$> ts) _ _ (rose_root k'));
        [done|apply list_elem_of_fmap; eauto..|apply rose_root_elem|].
      rewrite rose_nodes_root_below. by right. }
    rewrite !rose_nodes_root_below in Hsame. injection Hsame as Hr _.
    rewrite Hr in Hbelow. by apply (unfolding_acyclic h k (Hkids k Hk)). }
  apply elem_of_rose_nodes in Hq1 as [->|(k1 & Hk1 & Hq1)];
    apply elem_of_rose_nodes in Hq2 as [->|(k2 & Hk2 & Hq2)].
  - done.
  - destruct (Hroot q2 k2 Hk2 Hq2 Ho1 Ho2).
  - destruct (Hroot q1 k1 Hk1 Hq1 Ho2 Ho1).
  - assert (rose_nodes k1 = rose_nodes k2) as Hsame.
    { apply (NoDup_join_same (rose_nodes <$> ts) _ _ c);
        [done|apply list_elem_of_fmap; eauto..| |].
      - rewrite rose_nodes_root_below. right.
        by apply (owned_below h k1 q1 _ (Hkids k1 Hk1)).
      - rewrite rose_nodes_root_below. right.
        by apply (owned_below h k2 q2 _ (Hkids k2 Hk2)). }
    rewrite <-Hsame in Hq2. rewrite Forall_forall in IH.
    apply (IH k1 Hk1 q1 q2); [by apply Hkids|by eapply NoDup_rose_kid|done..].
Qed.

(** In a tree, [getParent] answers the owner of [child] when the owner lies
    strictly below the receiver. *)
Lemma getParent_owner_below h p t q c fuel :
  is_tree h p t → rose_size t ≤ fuel →
  q ∈ rose_below t → owns h q c →
  Node.getParent fuel h p (Some c) = Ok (Some q).
Proof.
  intros (Ht & <- & Hnd) Hsz Hq Hown. rewrite getParent_unfolding by done.
  destruct (List.find _ _) as [q'|] eqn:Hfind.
  - apply find_some_elem in Hfind as [Hq' Hown'%bool_decide_eq_true].
    do 2 f_equal. apply (owner_unique h t c); try done.
    + rewrite rose_nodes_root_below. by right.
    + rewrite rose_nodes_root_below. by right.
  - rewrite find_none_iff in Hfind. specialize (Hfind q Hq).
    by apply bool_decide_eq_false in Hfind.
Qed.

(** In a tree, [getParent] answers the absent value for every child held
    by the receiver itself. *)
Lemma getParent_direct_child h p t c fuel :
  is_tree h p t → rose_size t ≤ fuel → owns h p c →
  Node.getParent fuel h p (Some c) = Ok None.
Proof.
  intros (Ht & <- & Hnd) Hsz Hown. rewrite getParent_unfolding by done.
  f_equal. apply find_none_iff. intros q Hq. apply bool_decide_eq_false.
  intros Hown'. apply (unfolding_acyclic h t Ht).
  replace (rose_root t) with q; [done|].
  apply (owner_unique h t c); try done.
  - rewrite rose_nodes_root_below. by right.
  - apply rose_root_elem.
Qed.

(** In [Tree.move] the receiver and the argument of [getParent] are
    exchanged: the search runs below [node] and looks for the owner of the
    root, which an acyclic graph does not have there.  So nothing is
    detached and [move] only attaches. *)
Lemma move_only_attaches fuel (tr : Tree M) h t node newParent :
  root tr = Some (rose_root t) → unfolding h t = true →
  node ∈ rose_nodes t → rose_size t ≤ fuel →
  Tree.move fuel tr h node newParent = Ok (Node.addChild h newParent (Some node)).
Proof.
  intros Hroot Ht Hnode Hsz. unfold Tree.move. rewrite Hroot.
  destruct (unfolding_at _ _ _ Ht Hnode) as (s & Hs & <- & Hle).
  rewrite getParent_unfolding by (done || lia).
  destruct (List.find _ _) as [q|] eqn:Hq; [|done]. exfalso.
  apply find_some_elem in Hq as [Hq Hown%bool_decide_eq_true].
  apply (unfolding_no_cycle h t (rose_root t) Ht); [apply rtc_refl|].
  eapply tc_rtc_l; [by apply (rose_nodes_reach h t)|].
  eapply tc_r; [by apply (rose_below_reach h s)|done].
Qed.

(** So the former parent keeps [node] in its [children]. *)
Lemma move_keeps_former_parent fuel (tr : Tree M) h t node newParent former :
  root tr = Some (rose_root t) → unfolding h t = true →
  node ∈ rose_nodes t → rose_size t ≤ fuel → owns h former node →
  ∃ h', Tree.move fuel tr h node newParent = Ok h' ∧ owns h' former node.
Proof.
  intros Hroot Ht Hnode Hsz Hown. eexists. split; [by eapply move_only_attaches|].
  unfold owns, Node.addChild, set_children, children_of in *.
  destruct (decide (former = newParent)) as [->|Hne].
  - rewrite lookup_alter_eq. destruct (h !! newParent) as [nd|]; simpl; [|done].
    apply elem_of_app. by left.
  - by rewrite lookup_alter_ne.
Qed.

End Searches.

(** ** Depth-first orders *)

Section Orders.
Context {M : Type}.
Implicit Types (h : heap M) (t : rose) (n : loc).

Lemma for_of_ext {A St} (l : list A) (f g : A → St → res St) (s : St) :
  (∀ x s', f x s' = g x s') → for_of l f s = for_of l g s.
Proof.
  intros Hfg. revert s. induction l as [|x l IH]; intros s; simpl; [done|].
  rewrite Hfg. destruct (g x s) as [s'|e]; simpl; [apply IH|done].
Qed.

(** [traverse] looks at [order] only through its two membership tests. *)
Lemma traverse_pushes h (o1 o2 : Order) :
  pushes_before o1 = pushes_before o2 → pushes_after o1 = pushes_after o2 →
  ∀ fuel n result,
    Node.depthFirstSearch_traverse fuel h o1 n result =
    Node.depthFirstSearch_traverse fuel h o2 n result.
Proof.
  intros Hb Ha. induction fuel as [|fuel IH]; intros n result; [done|].
  rewrite !traverse_step, Hb, Ha.
  by rewrite (for_of_ext _ _ (Node.depthFirstSearch_traverse fuel h o2)).
Qed.

(** C5: ["post-order"] and ["in-order"] are both accepted and give the same
    outcome on every node, whatever the fuel; on an acyclic graph, given
    fuel for the node count, both give the sequence in which every node
    follows all of its children. *)
Theorem post_order_in_order_agree h node :
  (∀ fuel, Node.depthFirstSearch fuel h node PostOrder =
           Node.depthFirstSearch fuel h node InOrder) ∧
  (∀ t fuel, unfolding h t = true → rose_root t = node → rose_size t ≤ fuel →
     Node.depthFirstSearch fuel h node PostOrder = Ok (post_order t) ∧
     Node.depthFirstSearch fuel h node InOrder = Ok (post_order t)).
Proof.
  split.
  - intros fuel. unfold Node.depthFirstSearch.
    by rewrite (traverse_pushes h PostOrder InOrder).
  - intros t fuel Ht <- Hsz.
    destruct (depthFirstSearch_unfolding h BasePost t fuel Ht Hsz) as [Hpost _].
    destruct (depthFirstSearch_unfolding h BaseIn t fuel Ht Hsz) as [Hin _].
    cbn [forward] in Hpost, Hin. rewrite Hpost, Hin.
    change (pushes_before PostOrder) with false.
    change (pushes_after PostOrder) with true.
    change (pushes_before InOrder) with false.
    change (pushes_after InOrder) with true.
    by rewrite rose_dfs_post.
Qed.

(** C6: for each of the three base orders, the [reverse-] order gives the
    sequence of the base order reversed end to end: the outcomes agree for
    every fuel, and on an acyclic graph both are sequences. *)
Theorem reverse_order_reverses h node (x : BaseOrder) :
  (∀ fuel, Node.depthFirstSearch fuel h node (reversed x) =
           (l ← Node.depthFirstSearch fuel h node (forward x); Ok (reverse l))) ∧
  (∀ t fuel, unfolding h t = true → rose_root t = node → rose_size t ≤ fuel →
     ∃ l, Node.depthFirstSearch fuel h node (forward x) = Ok l ∧
          Node.depthFirstSearch fuel h node (reversed x) = Ok (reverse l)).
Proof.
  split.
  - intros fuel. unfold Node.depthFirstSearch.
    rewrite (traverse_pushes h (reversed x) (forward x)) by by destruct x.
    destruct (Node.depthFirstSearch_traverse _ _ _ _ _) as [l|e]; by destruct x.
  - intros t fuel Ht <- Hsz.
    destruct (depthFirstSearch_unfolding h x t fuel Ht Hsz) as [Hf Hr]. eauto.
Qed.

End Orders.

(** ** [all] *)

Section All.
Context {M : Type}.
Implicit Types (h : heap M) (t : rose) (n : loc).

Lemma rose_dfs_Permutation (x : BaseOrder) t :
  rose_dfs (pushes_before (forward x)) (pushes_after (forward x)) t ≡ₚ rose_nodes t.
Proof.
  destruct x.
  - change (pushes_before (forward BasePre)) with true.
    change (pushes_after (forward BasePre)) with false. by rewrite rose_dfs_pre.
  - change (pushes_before (forward BasePost)) with false.
    change (pushes_after (forward BasePost)) with true.
    by rewrite rose_dfs_post, post_order_Permutation.
  - change (pushes_before (forward BaseIn)) with false.
    change (pushes_after (forward BaseIn)) with true.
    by rewrite rose_dfs_post, post_order_Permutation.
Qed.

(** Each provided traversal lists the nodes of an unfolding, each as often
    as it occurs there. *)
Lemma traversal_unfolding h t (s : traversal) :
  unfolding h t = true →
  ∃ l, l ≡ₚ rose_nodes t ∧
       ∀ fuel, rose_size t ≤ fuel → traversal_fn s fuel h (rose_root t) = Ok l.
Proof.
  intros Ht. destruct s as [o|]; [|by apply breadthFirstOrder_unfolding].
  cbn [traversal_fn].
  assert (∃ x, o = forward x ∨ o = reversed x) as (x & [->| ->]).
  { destruct o; [exists BasePre|exists BasePost|exists BaseIn
                |exists BasePre|exists BasePost|exists BaseIn]; auto. }
  - exists (rose_dfs (pushes_before (forward x)) (pushes_after (forward x)) t).
    split; [apply rose_dfs_Permutation|].
    intros fuel Hsz. by destruct (depthFirstSearch_unfolding h x t fuel Ht Hsz).
  - exists (reverse (rose_dfs (pushes_before (forward x)) (pushes_after (forward x)) t)).
    split; [by rewrite reverse_Permutation, rose_dfs_Permutation|].
    intros fuel Hsz. by destruct (depthFirstSearch_unfolding h x t fuel Ht Hsz).
Qed.

End All.

Section AllClaim.
Context {M : Type}.
Implicit Types (h : heap M) (t : rose) (n : loc).

(** C7: on a non-empty acyclic tree, with any of the six depth-first orders
    or breadth-first as strategy, [all] returns a sequence whose members
    are exactly the nodes of the tree, whose length is the node count of the
    tree, root included, and which lists no node twice when no node of the
    tree has two owners. *)
Theorem all_lists_every_node (tr : Tree M) h r t (s : traversal) :
  root tr = Some r → strategy tr = traversal_fn s →
  unfolding h t = true → rose_root t = r →
  ∃ l, (∀ fuel, rose_size t ≤ fuel → Tree.all fuel tr h = Ok (Some l)) ∧
       (∀ n, n ∈ l ↔ tree_node h r n) ∧
       length l = rose_size t ∧
       (NoDup (rose_nodes t) → NoDup l).
Proof.
  intros Hroot Hstrat Ht <-.
  destruct (traversal_unfolding h t s Ht) as (l & Hp & Hl).
  exists l. split_and!.
  - intros fuel Hsz. unfold Tree.all. by rewrite Hroot, Hstrat, Hl.
  - intros n. rewrite Hp. by apply rose_nodes_reach.
  - by rewrite Hp, length_rose_nodes.
  - intros Hnd. by rewrite Hp.
Qed.

End AllClaim.

(** ** Insertion *)

Section Insertion.
Context {M V : Type} `{Model M V, EqDecision V}.
Implicit Types (h : heap M) (n : loc).

(** [findIndex] answers [-1] when no element matches, and otherwise the
    position of the first match. *)
Lemma findIndex_spec {A} (p : A → bool) (arr : list A) :
  (findIndex p arr = (-1)%Z ∧ Forall (fun x => p x = false) arr) ∨
  (∃ before x after,
      arr = before ++ x :: after ∧ Forall (fun y => p y = false) before ∧
      p x = true ∧ findIndex p arr = Z.of_nat (length before)).
Proof.
  induction arr as [|a arr IH]; [left; by split|].
  cbn [findIndex]. destruct (p a) eqn:Ha.
  - right. exists [], a, arr. by split_and!.
  - destruct IH as [[-> Hall]|(before & x & after & -> & Hall & Hx & ->)].
    + left. split; [done|]. by constructor.
    + right. exists (a :: before), x, after.
      split_and!; [done|by constructor|done|].
      destruct (Z.eqb_spec (Z.of_nat (length before)) (-1)); simpl length; lia.
Qed.

Lemma lookup_set_children h n nd cs :
  h !! n = Some nd →
  set_children h n cs = <[n := mkTreeNode (model nd) (index nd) cs]> h.
Proof.
  intros Hn. unfold set_children. apply map_eq. intros i.
  destruct (decide (i = n)) as [->|Hne].
  - by rewrite lookup_alter_eq, lookup_insert_eq, Hn.
  - by rewrite lookup_alter_ne, lookup_insert_ne.
Qed.

Lemma children_of_insert h n nd : children_of (<[n := nd]> h) n = children nd.
Proof. unfold children_of. by rewrite lookup_insert_eq. Qed.

Lemma addChild_lookup h n nd c :
  h !! n = Some nd →
  Node.addChild h n (Some c) =
  <[n := mkTreeNode (model nd) (index nd) (children nd ++ [c])]> h.
Proof.
  intros Hn. unfold Node.addChild. rewrite (lookup_set_children _ _ nd) by done.
  unfold children_of. by rewrite Hn.
Qed.

Lemma insertChild_loop_first h (p : predicate M) c skipped n rest :
  Forall (fun x => p h x = false) skipped → p h n = true →
  Tree.insertChild_loop h p c (skipped ++ n :: rest) = Node.addChild h n (Some c).
Proof.
  induction 1 as [|x skipped Hx _ IH]; intros Hn; simpl.
  - by rewrite Hn.
  - rewrite Hx. by apply IH.
Qed.

Lemma insertChild_loop_none h (p : predicate M) c nodes :
  Forall (fun x => p h x = false) nodes → Tree.insertChild_loop h p c nodes = h.
Proof. induction 1 as [|x nodes Hx _ IH]; simpl; [done|]. by rewrite Hx. Qed.

(** C8: [insertChild] of a node, given a child that is not absent, puts the
    child immediately before the first immediate child that satisfies the
    predicate, or at the end when none does; the other children keep their
    order and the array grows by one.  [insertChild] of a tree appends the
    child, by [addChild], to the children of the first node of the strategy's
    sequence that satisfies the predicate, and changes nothing when no node
    of the sequence does. *)
Theorem insertChild_node_and_tree h (c : loc) (pp : predicateOrProperty M V) :
  (∀ this nd, h !! this = Some nd →
     ∃ before after,
       children nd = before ++ after ∧
       Node.insertChild h this (Some c) pp =
         <[this := mkTreeNode (model nd) (index nd) (before ++ c :: after)]> h ∧
       children_of (Node.insertChild h this (Some c) pp) this = before ++ c :: after ∧
       Forall (fun x => resolve pp h x = false) before ∧
       (after = [] ∨ ∃ x rest, after = x :: rest ∧ resolve pp h x = true) ∧
       length (children_of (Node.insertChild h this (Some c) pp) this)
         = S (length (children nd))) ∧
  (∀ fuel (tr : Tree M) nodes,
     match root tr with
     | Some r => strategy tr fuel h r
     | None => Ok []
     end = Ok nodes →
     (∀ skipped n nd rest,
        nodes = skipped ++ n :: rest →
        Forall (fun x => resolve pp h x = false) skipped →
        resolve pp h n = true → h !! n = Some nd →
        Tree.insertChild fuel tr h c pp =
          Ok (<[n := mkTreeNode (model nd) (index nd) (children nd ++ [c])]> h)) ∧
     (Forall (fun x => resolve pp h x = false) nodes →
        Tree.insertChild fuel tr h c pp = Ok h)).
Proof.
  split.
  - intros this nd Hthis. unfold Node.insertChild.
    assert (children_of h this = children nd) as Hcs
      by (unfold children_of; by rewrite Hthis).
    rewrite Hcs.
    destruct (findIndex_spec (resolve pp h) (children nd))
      as [[Hi Hall]|(before & x & after & Hsplit & Hall & Hx & Hi)].
    + rewrite Hi. rewrite bool_decide_eq_false_2 by (intros ?; done).
      exists (children nd), []. rewrite (lookup_set_children _ _ nd) by done.
      rewrite children_of_insert, app_nil_r. cbn [children].
      rewrite length_app. simpl.
      split_and!; [done..|by left|lia].
    + rewrite Hi. rewrite bool_decide_eq_true_2 by lia.
      exists before, (x :: after). rewrite (lookup_set_children _ _ nd) by done.
      rewrite children_of_insert. cbn [children]. unfold splice_insert.
      rewrite Nat2Z.id, Hsplit, take_app_length, drop_app_length.
      split_and!; [done..|right; eauto|].
      rewrite !length_app. simpl. lia.
  - intros fuel tr nodes Hnodes. unfold Tree.insertChild. rewrite Hnodes. simpl.
    split.
    + intros skipped n nd rest -> Hskip Hn Hnd.
      by rewrite insertChild_loop_first, (addChild_lookup _ _ nd).
    + intros Hall. by rewrite insertChild_loop_none.
Qed.

End Insertion.

(** ** Removal of the root *)

Section Removal.
Context {M : Type}.

(** C9: removing the root, whatever lies below it, leaves a tree whose root
    is absent and for which [all] returns the absent value. *)
Theorem remove_root_empties_tree fuel (tr : Tree M) (h : heap M) (r : loc) :
  root tr = Some r →
  ∃ tr', Tree.remove fuel tr h r = Ok (tr', h) ∧
         root tr' = None ∧
         ∀ fuel', Tree.all fuel' tr' h = Ok None.
Proof.
  intros Hroot. exists (mkTree None (strategy tr)). unfold Tree.remove.
  rewrite Hroot, bool_decide_eq_true_2 by done. by split_and!.
Qed.

End Removal.

(** ** [find] *)

Section Find.
Context {M V : Type} `{Model M V, EqDecision V}.

(** C10: on a non-empty acyclic tree, [find] answers the first match among
    the nodes strictly below the root and never the root; a predicate or
    property that holds of the root and of no other node finds nothing. *)
Theorem find_skips_root fuel (tr : Tree M) (h : heap M) r t
    (pp : predicateOrProperty M V) :
  root tr = Some r → unfolding h t = true → rose_root t = r → rose_size t ≤ fuel →
  Tree.find fuel tr h pp = Ok (List.find (resolve pp h) (rose_below t)) ∧
  Tree.find fuel tr h pp ≠ Ok (Some r) ∧
  ((∀ n, resolve pp h n = true ↔ n = r) → Tree.find fuel tr h pp = Ok None).
Proof.
  intros Hroot Ht <- Hsz. unfold Tree.find. rewrite Hroot.
  rewrite findChild_unfolding by done. split_and!; [done| |].
  - intros [= [Hin _]%find_some_elem]. by eapply unfolding_acyclic.
  - intros Honly. f_equal. apply find_none_iff. intros n Hn.
    destruct (resolve pp h n) eqn:Hp; [|done].
    apply Honly in Hp as ->. destruct (unfolding_acyclic h t Ht Hn).
Qed.

End Find.

(** ** The empty tree *)

Section EmptyTree.
Context {M V : Type} `{Model M V, EqDecision V}.

(** C4, as the code has it: on a tree without a root, [all], [find],
    [getPath] and [getReversePath] return the absent value and [remove],
    [walk] and [insertChild] change nothing; [move] finds no parent to
    detach from and still appends [node] to the children of [newParent],
    every other node staying as it is. *)
Theorem empty_tree_operations fuel (tr : Tree M) (h : heap M) :
  root tr = None →
  Tree.all fuel tr h = Ok None ∧
  (∀ pp : predicateOrProperty M V, Tree.find fuel tr h pp = Ok None) ∧
  (∀ node, Tree.remove fuel tr h node = Ok (tr, h)) ∧
  (∀ node, Tree.getPath fuel tr h node = Ok None) ∧
  (∀ node, Tree.getReversePath fuel tr h node = Ok None) ∧
  (∀ (W : Type) (callback : loc → W → W) (w : W),
     Tree.walk fuel tr h callback w = Ok w) ∧
  (∀ child (pp : predicateOrProperty M V),
     Tree.insertChild fuel tr h child pp = Ok h) ∧
  (∀ node newParent nd, h !! newParent = Some nd →
     Tree.move fuel tr h node newParent =
       Ok (<[newParent := mkTreeNode (model nd) (index nd) (children nd ++ [node])]> h)).
Proof.
  intros Hroot.
  unfold Tree.all, Tree.find, Tree.remove, Tree.getPath, Tree.getReversePath,
    Tree.walk, Tree.insertChild, Tree.move.
  rewrite Hroot. split_and!; try done.
  intros node newParent nd Hnd.
  assert (Node.getParent fuel h node None = Ok None) as -> by by destruct fuel.
  cbv [mbind res_bind]. by rewrite (addChild_lookup _ _ nd).
Qed.

End EmptyTree.

(** ** [parse] *)

Section Parse.
Context {M : Type}.

Lemma keeps_fields_refl (h : heap M) : keeps_fields h h.
Proof. intros n [m i cs] Hn. by exists cs. Qed.

Lemma keeps_fields_trans (h1 h2 h3 : heap M) :
  keeps_fields h1 h2 → keeps_fields h2 h3 → keeps_fields h1 h3.
Proof.
  intros H12 H23 n nd Hn. destruct (H12 n nd Hn) as (cs & Hn2).
  destruct (H23 n _ Hn2) as (cs' & Hn3). by exists cs'.
Qed.

Lemma keeps_fields_set_children (h : heap M) n cs :
  keeps_fields h (set_children h n cs).
Proof.
  intros n' nd Hn'. unfold set_children. destruct (decide (n' = n)) as [->|Hne].
  - exists cs. by rewrite lookup_alter_eq, Hn'.
  - exists (children nd). rewrite lookup_alter_ne, Hn' by done. by destruct nd.
Qed.

Lemma keeps_fields_new (h : heap M) m i :
  keeps_fields h (new_TreeNode h m i).2.
Proof.
  intros n nd Hn. exists (children nd). simpl.
  rewrite lookup_insert_ne; [by destruct nd|].
  intros <-. apply (is_fresh (dom h)). by apply elem_of_dom.
Qed.

(** The callback of [parseChildren] returns on every entry that is an
    object down to its leaves, keeping the nodes made before. *)
Lemma parseChildren_callback_total (d : jsdata M) : ∀ parentNode i h,
  entries_present d = true →
  ∃ h', Tree.parseChildren_callback parentNode d i h = Ok h' ∧ keeps_fields h h'.
Proof.
  induction d as [|m i0|m i0 cs IH] using jsdata_ind_entries;
    intros parentNode i h Hd; [done| |].
  - eexists. split; [done|]. simpl.
    eapply keeps_fields_trans; [apply keeps_fields_new|].
    apply keeps_fields_set_children.
  - cbn [Tree.parseChildren_callback].
    destruct (new_TreeNode h m (Some (Z.of_nat i + 1)%Z)) as [childNode h1] eqn:Hnew.
    assert (keeps_fields h (Node.addChild h1 parentNode (Some childNode))) as Hkeep.
    { eapply keeps_fields_trans; [|apply keeps_fields_set_children].
      pose proof (keeps_fields_new h m (Some (Z.of_nat i + 1)%Z)) as Hk.
      by rewrite Hnew in Hk. }
    revert Hkeep. generalize (Node.addChild h1 parentNode (Some childNode)).
    simpl in Hd. generalize 0. clear Hnew h1.
    induction IH as [|e cs He _ IHcs]; intros k h2 Hkeep.
    + by exists h2.
    + simpl in Hd. apply andb_true_iff in Hd as [Hde Hdcs].
      destruct (He childNode k h2 Hde) as (h3 & Hh3 & Hkeep3).
      cbn [forEach]. rewrite Hh3. simpl.
      apply IHcs; [done|by eapply keeps_fields_trans].
Qed.

Lemma parseChildren_total (cs : list (jsdata M)) : ∀ parentNode h,
  forallb entries_present cs = true →
  ∃ h', Tree.parseChildren h parentNode (Some cs) = Ok h' ∧ keeps_fields h h'.
Proof.
  intros parentNode. cbn [Tree.parseChildren]. generalize 0.
  induction cs as [|e cs IH]; intros k h Hcs.
  - exists h. split; [done|apply keeps_fields_refl].
  - simpl in Hcs. apply andb_true_iff in Hcs as [He Hcs].
    destruct (parseChildren_callback_total e parentNode k h He) as (h1 & Hh1 & Hkeep1).
    destruct (IH (S k) h1 Hcs) as (h2 & Hh2 & Hkeep2).
    exists h2. cbn [forEach]. rewrite Hh1. simpl.
    split; [done|by eapply keeps_fields_trans].
Qed.

(** [parse] returns a root with the model and index of the input whenever
    the input has a [children] array and every entry in it, at every depth,
    is an object. *)
Lemma parse_with_children (h : heap M) (m : M) (i : option Z) (cs : list (jsdata M)) :
  forallb entries_present cs = true →
  ∃ r h' kids, Tree.parse h (JObject m i (Some cs)) = Ok (Some r, h') ∧
               h' !! r = Some (mkTreeNode m i kids).
Proof.
  intros Hcs. cbn [Tree.parse].
  destruct (new_TreeNode h m i) as [r h1] eqn:Hnew.
  assert (h1 !! r = Some (mkTreeNode m i [])) as Hr.
  { injection Hnew as <- <-. apply lookup_insert_eq. }
  destruct (parseChildren_total cs r h1 Hcs) as (h' & Hh' & Hkeep).
  rewrite Hh'. simpl. destruct (Hkeep r _ Hr) as (kids & Hkids).
  by exists r, h', kids.
Qed.

(** With an empty [children] array the root is a node without children. *)
Lemma parse_leaf_with_children (h : heap M) (m : M) (i : option Z) :
  Tree.parse h (JObject m i (Some [])) =
  Ok (Some (fresh (dom h)), <[fresh (dom h) := mkTreeNode m i []]> h).
Proof. reflexivity. Qed.

(** C3: [parse] does not accept the documented input without a [children]
    entry.  [parseChildren] is called with [object.children], which is
    [undefined], and [children.forEach] raises a TypeError; the recursive
    call inside [parseChildren] is guarded by [if (childData.children)],
    the call in [parse] is not. *)
Theorem parse_without_children_throws (h : heap M) (m : M) (i : option Z) :
  Tree.parse h (JObject m i None) = Err TypeError.
Proof. reflexivity. Qed.

End Parse.

(** ** [move] and [getParent] on the tree of the tests *)

(** C1: [tree.move(grandchild1, child2)] on
    [root -> [child1 -> [grandchild1], child2]] detaches nothing, since the
    parent is looked up with receiver and argument exchanged.  Afterwards
    [grandchild1] is still in the children of [child1], its former parent,
    and [getParent(grandchild1)] from the root answers [child1], not
    [child2]. *)
Theorem move_leaves_node_with_former_parent (fuel : nat) :
  Tree.move (4 + fuel) Sample.tree Sample.store Sample.grandchild1 Sample.child2
    = Ok Sample.store_moved ∧
  children_of Sample.store_moved Sample.child1 = [Sample.grandchild1] ∧
  children_of Sample.store_moved Sample.child2 = [Sample.grandchild1] ∧
  Node.getParent (5 + fuel) Sample.store_moved Sample.rootNode (Some Sample.grandchild1)
    = Ok (Some Sample.child1).
Proof.
  split_and!.
  - rewrite (move_only_attaches _ _ _ Sample.shape);
      [by vm_compute|done|by vm_compute| |simpl; lia].
    apply (bool_decide_unpack _). by vm_compute.
  - by vm_compute.
  - by vm_compute.
  - rewrite (getParent_unfolding Sample.store_moved Sample.shape_moved);
      [by vm_compute|by vm_compute|simpl; lia].
Qed.

(** The scenario of the test suite, [tree.move(child1, child2)]: the
    expectation of the test holds, [getParent(child1)] from the root answers
    [child2], yet only because [getParent] never answers its receiver;
    [child1] is still the first child of the root. *)
Lemma move_test_scenario (fuel : nat) :
  ∃ h', Tree.move (4 + fuel) Sample.tree Sample.store Sample.child1 Sample.child2
          = Ok h' ∧
        children_of h' Sample.rootNode = [Sample.child1; Sample.child2] ∧
        children_of h' Sample.child2 = [Sample.child1] ∧
        Node.getParent 5 h' Sample.rootNode (Some Sample.child1)
          = Ok (Some Sample.child2).
Proof.
  eexists. split_and!.
  - rewrite (move_only_attaches _ _ _ Sample.shape);
      [done|done|by vm_compute| |simpl; lia].
    apply (bool_decide_unpack _). by vm_compute.
  - by vm_compute.
  - by vm_compute.
  - by vm_compute.
Qed.

(** C2: [rootNode.getParent(child1)] answers the absent value although
    [child1] is in the children of [rootNode]: the loop tests the
    [children] of every node below the receiver and never those of the
    receiver. *)
Theorem getParent_misses_direct_child (fuel : nat) :
  Sample.child1 ∈ children_of Sample.store Sample.rootNode ∧
  Node.getParent (4 + fuel) Sample.store Sample.rootNode (Some Sample.child1) = Ok None.
Proof.
  split.
  - apply (bool_decide_unpack _). by vm_compute.
  - rewrite (getParent_unfolding Sample.store Sample.shape);
      [by vm_compute|by vm_compute|simpl; lia].
Qed.

(** C4, as the specification states it, fails for [move]: on a tree without
    a root, [move(child1, child2)] changes [child2]. *)
Lemma move_on_empty_tree_changes_newParent :
  root Sample.empty_tree = None ∧
  Tree.move 0 Sample.empty_tree Sample.loose Sample.child1 Sample.child2
    = Ok Sample.loose_moved ∧
  children_of Sample.loose Sample.child2 = [] ∧
  children_of Sample.loose_moved Sample.child2 = [Sample.child1] ∧
  Tree.move 0 Sample.empty_tree Sample.loose Sample.child1 Sample.child2
    ≠ Ok Sample.loose.
Proof.
  split; [done|]. split; [by vm_compute|]. split; [by vm_compute|].
  split; [by vm_compute|]. intros Heq.
  apply (f_equal (fun r => match r with
                           | Ok h' => children_of h' Sample.child2
                           | Err _ => []
                           end)) in Heq.
  by vm_compute in Heq.
Qed.

(** ** The theorems on the tree of the tests *)

(** Both orders on the tree of the tests. *)
Lemma post_order_in_order_agree_sample :
  unfolding Sample.store Sample.shape = true ∧
  Node.depthFirstSearch 4 Sample.store Sample.rootNode PostOrder
    = Ok [Sample.grandchild1; Sample.child1; Sample.child2; Sample.rootNode] ∧
  Node.depthFirstSearch 4 Sample.store Sample.rootNode InOrder
    = Ok [Sample.grandchild1; Sample.child1; Sample.child2; Sample.rootNode].
Proof.
  split; [reflexivity|].
  apply (proj2 (post_order_in_order_agree Sample.store Sample.rootNode) Sample.shape 4).
  - reflexivity.
  - reflexivity.
  - simpl. lia.
Defined.

(** Pre-order and its reversal on the tree of the tests. *)
Lemma reverse_order_reverses_sample :
  unfolding Sample.store Sample.shape = true ∧
  ∃ l, Node.depthFirstSearch 4 Sample.store Sample.rootNode PreOrder = Ok l ∧
       Node.depthFirstSearch 4 Sample.store Sample.rootNode ReversePreOrder
         = Ok (reverse l).
Proof.
  split; [reflexivity|].
  apply (proj2 (reverse_order_reverses Sample.store Sample.rootNode BasePre)
           Sample.shape 4).
  - reflexivity.
  - reflexivity.
  - simpl. lia.
Defined.

(** [all] with the breadth-first strategy on the tree of the tests. *)
Lemma all_lists_every_node_sample :
  unfolding Sample.store Sample.shape = true ∧
  ∃ l, (∀ fuel, rose_size Sample.shape ≤ fuel →
          Tree.all fuel (mkTree (Some Sample.rootNode) (traversal_fn BreadthFirst))
            Sample.store = Ok (Some l)) ∧
       (∀ n, n ∈ l ↔ tree_node Sample.store Sample.rootNode n) ∧
       length l = rose_size Sample.shape ∧
       (NoDup (rose_nodes Sample.shape) → NoDup l).
Proof.
  split; [reflexivity|].
  apply (all_lists_every_node
           (mkTree (Some Sample.rootNode) (traversal_fn BreadthFirst))
           Sample.store Sample.rootNode Sample.shape BreadthFirst); reflexivity.
Defined.

(** Inserting a node before [child2] among the children of the root. *)
Lemma insertChild_node_and_tree_sample :
  Sample.store !! Sample.rootNode
    = Some (mkTreeNode (Sample.mkModel 0 "root" 10) (Some 0%Z)
              [Sample.child1; Sample.child2]) ∧
  ∃ before after,
    [Sample.child1; Sample.child2] = before ++ after ∧
    children_of (Node.insertChild Sample.store Sample.rootNode (Some 9)
                   (Property "name" (Sample.VStr "child2"))) Sample.rootNode
      = before ++ 9 :: after.
Proof.
  split; [reflexivity|].
  destruct (proj1 (insertChild_node_and_tree Sample.store 9
                     (Property "name" (Sample.VStr "child2")))
              Sample.rootNode
              (mkTreeNode (Sample.mkModel 0 "root" 10) (Some 0%Z)
                 [Sample.child1; Sample.child2]) eq_refl)
    as (before & after & Hsplit & _ & Hins & _).
  exists before, after. split; [exact Hsplit|exact Hins].
Defined.

(** Removing the root of the tree of the tests. *)
Lemma remove_root_empties_tree_sample :
  root Sample.tree = Some Sample.rootNode ∧
  ∃ tr', Tree.remove 0 Sample.tree Sample.store Sample.rootNode
           = Ok (tr', Sample.store) ∧
         root tr' = None ∧
         ∀ fuel', Tree.all fuel' tr' Sample.store = Ok None.
Proof.
  split; [reflexivity|].
  apply (remove_root_empties_tree 0 Sample.tree Sample.store Sample.rootNode).
  reflexivity.
Defined.

(** [find] with the predicate [(node) => node === root]. *)
Lemma find_skips_root_sample :
  unfolding Sample.store Sample.shape = true ∧
  Sample.same_node Sample.rootNode Sample.store Sample.rootNode = true ∧
  Tree.find (V := Sample.prop_value) 4 Sample.tree Sample.store
    (Predicate (Sample.same_node Sample.rootNode)) = Ok None.
Proof.
  split; [reflexivity|]. split; [reflexivity|].
  apply (find_skips_root (V := Sample.prop_value) 4 Sample.tree Sample.store
           Sample.rootNode Sample.shape (Predicate (Sample.same_node Sample.rootNode))).
  - reflexivity.
  - reflexivity.
  - reflexivity.
  - simpl. lia.
  - intros n. apply bool_decide_eq_true.
Defined.

(** [all] and [move] on a tree without a root. *)
Lemma empty_tree_operations_sample :
  root Sample.empty_tree = None ∧
  Tree.all 0 Sample.empty_tree Sample.loose = Ok None ∧
  Tree.move 0 Sample.empty_tree Sample.loose Sample.child1 Sample.child2
    = Ok Sample.loose_moved.
Proof.
  split; [reflexivity|].
  destruct (empty_tree_operations (V := Sample.prop_value) 0
              Sample.empty_tree Sample.loose eq_refl)
    as (Hall & _ & _ & _ & _ & _ & _ & Hmove).
  split; [exact Hall|].
  apply (Hmove Sample.child1 Sample.child2
           (mkTreeNode (Sample.mkModel 2 "child2" 30) (Some 2%Z) [])).
  reflexivity.
Defined.

(** * Further properties of the code *)

(** ** [getPath] and [getReversePath] *)

Section Paths.
Context {M : Type}.
Implicit Types (h : heap M) (t : rose) (n : loc).

Lemma for_of_until_kids h target fuel ts : ∀ path,
  Forall (fun k => ∀ path',
            Node.getPath_traverse fuel h target (Some (rose_root k)) path' =
            Ok (match rose_path target k with
                | Some p => (true, path' ++ p)
                | None => (false, path')
                end)) ts →
  for_of_until (rose_root <$> ts)
    (fun child => Node.getPath_traverse fuel h target (Some child)) path =
  Ok (match first_some (rose_path target) ts with
      | Some p => (true, path ++ p)
      | None => (false, path)
      end).
Proof.
  intros path Hts. induction Hts as [|k ts Hk _ IH]; [done|].
  csimpl. rewrite Hk. destruct (rose_path target k) as [p|]; [done|]. apply IH.
Qed.

(** On an acyclic graph the helper of [getPath] leaves [path] as it was
    when the target is not below the current node, and otherwise appends
    the first path to it. *)
Lemma getPath_traverse_unfolding h target t : ∀ fuel path,
  unfolding h t = true → rose_size t ≤ fuel →
  Node.getPath_traverse fuel h target (Some (rose_root t)) path =
  Ok (match rose_path target t with
      | Some p => (true, path ++ p)
      | None => (false, path)
      end).
Proof.
  induction t as [n ts IH] using rose_ind_kids. intros fuel path Ht Hsz.
  destruct fuel as [|fuel]; [simpl in Hsz; lia|].
  cbn [Node.getPath_traverse rose_root rose_path].
  destruct (bool_decide (n = target)); [done|].
  rewrite (unfolding_children _ _ _ Ht), for_of_until_kids.
  - destruct (first_some (rose_path target) ts) as [p|]; simpl.
    + by rewrite <-(assoc_L (++)).
    + by rewrite removelast_last.
  - apply unfolding_kids in Ht. simpl in Hsz. apply le_S_n in Hsz.
    rewrite Forall_forall in IH, Ht. apply Forall_forall. intros k Hk path'.
    pose proof (rose_size_kid _ _ Hk). apply IH; [done|by apply Ht|lia].
Qed.

Lemma first_some_Some {A B} (f : A → option B) l b :
  first_some f l = Some b → ∃ x, x ∈ l ∧ f x = Some b.
Proof.
  induction l as [|x l IH]; [done|]. simpl.
  destruct (f x) as [b'|] eqn:Hx.
  - intros [= ->]. exists x. split; [left|done].
  - intros (y & Hy & Hfy)%IH. exists y. split; [by right|done].
Qed.

Lemma first_some_None {A B} (f : A → option B) l :
  first_some f l = None ↔ ∀ x, x ∈ l → f x = None.
Proof.
  induction l as [|x l IH]; simpl.
  - split; [by intros _ ? ?%elem_of_nil|done].
  - destruct (f x) as [b|] eqn:Hx.
    + split; [done|]. intros Hall. specialize (Hall x). rewrite Hx in Hall.
      apply Hall. left.
    + rewrite IH. split.
      * intros Hall y [->|Hy]%elem_of_cons; [done|by apply Hall].
      * intros Hall y Hy. apply Hall. by right.
Qed.

(** A path found starts at the root, ends at the target and follows
    [children] entries. *)
Lemma rose_path_Some h target t p :
  unfolding h t = true → rose_path target t = Some p →
  head p = Some (rose_root t) ∧ last p = Some target ∧ linked h p.
Proof.
  revert p. induction t as [n ts IH] using rose_ind_kids. intros p Ht.
  cbn [rose_path]. case_bool_decide as Hn.
  - intros [= <-]. by subst.
  - destruct (first_some _ _) as [q|] eqn:Hq; [|done]. intros [= <-].
    apply first_some_Some in Hq as (k & Hk & Hq).
    rewrite Forall_forall in IH.
    assert (unfolding h k = true) as Hu.
    { apply unfolding_kids in Ht. rewrite Forall_forall in Ht. by apply Ht. }
    destruct (IH k Hk q Hu Hq) as (Hhead & Hlast & Hlinked).
    destruct q as [|c q]; [done|]. simpl in Hhead. injection Hhead as ->.
    split_and!; [done|by rewrite last_cons_cons|].
    split; [|done]. by eapply unfolding_owns_kid.
Qed.

(** No path is found exactly for the targets that are not in the unfolding. *)
Lemma rose_path_None target t :
  rose_path target t = None ↔ target ∉ rose_nodes t.
Proof.
  induction t as [n ts IH] using rose_ind_kids.
  cbn [rose_path]. rewrite elem_of_rose_nodes. case_bool_decide as Hn.
  - split; [done|]. intros []. by left.
  - rewrite Forall_forall in IH.
    destruct (first_some _ _) as [q|] eqn:Hq.
    + split; [done|]. intros []. right.
      apply first_some_Some in Hq as (k & Hk & Hq). exists k. split; [done|].
      destruct (decide (target ∈ rose_nodes k)) as [|Hnot]; [done|].
      apply IH in Hnot; [congruence|done].
    + split; [|done]. intros _ [->|(k & Hk & Hin)]; [done|].
      rewrite first_some_None in Hq. by apply (proj1 (IH k Hk) (Hq k Hk)).
Qed.

Lemma getPath_unfolding h target t fuel :
  unfolding h t = true → rose_size t ≤ fuel →
  Node.getPath fuel h (rose_root t) target = Ok (rose_path target t).
Proof.
  intros Ht Hsz. unfold Node.getPath. rewrite getPath_traverse_unfolding by done.
  destruct (rose_path target t) as [p|] eqn:Hp; simpl; [|done].
  destruct (rose_path_Some h _ _ _ Ht Hp) as (Hhead & _).
  by destruct p.
Qed.

(** X1: on an acyclic graph, [getPath] of a node that can be reached from
    the receiver returns a path that starts with the receiver, ends with
    the target and goes from each node to one of its children;
    [getReversePath] returns the same path from the target back to the
    receiver. *)
Theorem getPath_reaches_target h t this target fuel :
  unfolding h t = true → rose_root t = this → rose_size t ≤ fuel →
  tree_node h this target →
  ∃ p, Node.getPath fuel h this target = Ok (Some p) ∧
       head p = Some this ∧ last p = Some target ∧ linked h p ∧
       Node.getReversePath fuel h this target = Ok (Some (reverse p)).
Proof.
  intros Ht <- Hsz Hreach. apply (rose_nodes_reach h t) in Hreach; [|done].
  destruct (rose_path target t) as [p|] eqn:Hp;
    [|by apply rose_path_None in Hp].
  exists p. destruct (rose_path_Some h _ _ _ Ht Hp) as (Hhead & Hlast & Hlinked).
  unfold Node.getReversePath. rewrite getPath_unfolding, Hp by done.
  by split_and!.
Qed.

(** X2: on an acyclic graph, [getPath] and [getReversePath] return the
    absent value for every node that cannot be reached from the receiver. *)
Theorem getPath_absent_outside h t this target fuel :
  unfolding h t = true → rose_root t = this → rose_size t ≤ fuel →
  ¬ tree_node h this target →
  Node.getPath fuel h this target = Ok None ∧
  Node.getReversePath fuel h this target = Ok None.
Proof.
  intros Ht <- Hsz Hout. unfold Node.getReversePath.
  rewrite getPath_unfolding by done.
  assert (rose_path target t = None) as ->; [|done].
  apply rose_path_None. intros Hin. apply Hout. by apply (rose_nodes_reach h t).
Qed.

End Paths.

(** ** Changing the children of a node *)

Section Children.
Context {M V : Type} `{Model M V, EqDecision V}.
Implicit Types (h : heap M) (n : loc).

Lemma children_of_set_children_eq h n cs :
  is_Some (h !! n) → children_of (set_children h n cs) n = cs.
Proof.
  intros [nd Hn]. unfold children_of, set_children.
  by rewrite lookup_alter_eq, Hn.
Qed.

Lemma children_of_set_children_ne h n n' cs :
  n ≠ n' → children_of (set_children h n cs) n' = children_of h n'.
Proof. intros Hne. unfold children_of, set_children. by rewrite lookup_alter_ne. Qed.

Lemma lookup_set_children_ne h n n' cs :
  n ≠ n' → set_children h n cs !! n' = h !! n'.
Proof. intros Hne. unfold set_children. by rewrite lookup_alter_ne. Qed.

(** Writing back the array a node has changes nothing. *)
Lemma set_children_same h n : set_children h n (children_of h n) = h.
Proof.
  apply map_eq. intros i. unfold set_children, children_of.
  destruct (decide (i = n)) as [->|Hne]; [|by rewrite lookup_alter_ne].
  rewrite lookup_alter_eq. by destruct (h !! n) as [[m i cs]|].
Qed.

Lemma set_children_twice h n cs cs' :
  set_children (set_children h n cs) n cs' = set_children h n cs'.
Proof.
  apply map_eq. intros i. unfold set_children.
  destruct (decide (i = n)) as [->|Hne]; [|by rewrite !lookup_alter_ne].
  rewrite !lookup_alter_eq. by destruct (h !! n).
Qed.

Lemma set_children_models h n cs i :
  model <$> (set_children h n cs !! i) = model <$> (h !! i).
Proof.
  unfold set_children. destruct (decide (i = n)) as [->|Hne];
    [|by rewrite lookup_alter_ne].
  rewrite lookup_alter_eq. by destruct (h !! n).
Qed.

Lemma resolve_Property_model_only (name : string) (value : V) :
  model_only (resolve (M := M) (Property name value)).
Proof.
  intros h h' c Hmodels. simpl. specialize (Hmodels c).
  destruct (h !! c) as [nd|], (h' !! c) as [nd'|]; simpl in Hmodels; try done.
  by injection Hmodels as ->.
Qed.

Lemma filter_all {A} (P : A → Prop) `{∀ x, Decision (P x)} (l : list A) :
  Forall P l → filter P l = l.
Proof.
  induction 1 as [|x l Hx _ IH]; [done|]. by rewrite filter_cons_True, IH.
Qed.

Lemma filter_none {A} (P : A → Prop) `{∀ x, Decision (P x)} (l : list A) :
  Forall (fun x => ¬ P x) l → filter P l = [].
Proof.
  induction 1 as [|x l Hx _ IH]; [done|]. by rewrite filter_cons_False.
Qed.

(** X3: [moveChild] with a child and a new parent takes every entry equal
    to the child out of the receiver's children and pushes the child onto
    the new parent's children; when the new parent is the receiver itself
    the child ends up last.  No other node changes, and with either
    argument absent nothing changes at all. *)
Theorem moveChild_detaches_and_attaches h this newParent c :
  is_Some (h !! this) → is_Some (h !! newParent) →
  (this ≠ newParent →
     children_of (Node.moveChild h this (Some c) (Some newParent)) this
       = filter (fun x => x ≠ c) (children_of h this) ∧
     (c ∉ children_of (Node.moveChild h this (Some c) (Some newParent)) this) ∧
     children_of (Node.moveChild h this (Some c) (Some newParent)) newParent
       = children_of h newParent ++ [c]) ∧
  (this = newParent →
     children_of (Node.moveChild h this (Some c) (Some newParent)) this
       = filter (fun x => x ≠ c) (children_of h this) ++ [c]) ∧
  (∀ n, n ≠ this → n ≠ newParent →
     (Node.moveChild h this (Some c) (Some newParent)) !! n = h !! n) ∧
  Node.moveChild h this None (Some newParent) = h ∧
  Node.moveChild h this (Some c) None = h.
Proof.
  intros Hthis Hnew. unfold Node.moveChild, Node.addChild, Node.removeChild.
  split_and!; [| | |done..].
  - intros Hne.
    rewrite (children_of_set_children_ne _ newParent this) by done.
    rewrite (children_of_set_children_eq _ this) by done.
    rewrite (children_of_set_children_ne _ this newParent) by done.
    rewrite (children_of_set_children_eq _ newParent)
      by by rewrite lookup_set_children_ne.
    split_and!; [done| |done].
    intros [Hc _]%list_elem_of_filter. by apply Hc.
  - intros <-. rewrite set_children_twice.
    rewrite (children_of_set_children_eq _ this) by done.
    by rewrite (children_of_set_children_eq _ this) by done.
  - intros n Hn1 Hn2. by rewrite !lookup_set_children_ne.
Qed.

(** X4: pushing a child that a node does not hold and removing it again
    gives back the store as it was. *)
Theorem removeChild_addChild h this c :
  c ∉ children_of h this →
  Node.removeChild (Node.addChild h this (Some c)) this (Some c) = h.
Proof.
  intros Hc. unfold Node.removeChild, Node.addChild.
  rewrite set_children_twice.
  destruct (h !! this) as [nd|] eqn:Hthis.
  - rewrite children_of_set_children_eq by done.
    rewrite filter_app, filter_cons_False, filter_nil, app_nil_r by (intros ?; done).
    rewrite filter_all; [apply set_children_same|].
    apply Forall_forall. intros x Hx ->. done.
  - apply map_eq. intros i. unfold set_children.
    destruct (decide (i = this)) as [->|Hne]; [|by rewrite lookup_alter_ne].
    by rewrite lookup_alter_eq, Hthis.
Qed.

(** X5: for a predicate that reads only models, [deleteChildren] keeps the
    children that fail the predicate, in their order, so that
    [findChildren] with the same predicate finds nothing afterwards; what
    [findChildren] found before and what is kept make up the children the
    node had. *)
Theorem deleteChildren_removes_matches h this (pp : predicateOrProperty M V) :
  is_Some (h !! this) → model_only (resolve pp) →
  children_of (Node.deleteChildren h this pp) this
    = filter (fun c => resolve pp h c = false) (children_of h this) ∧
  Node.findChildren (Node.deleteChildren h this pp) this pp = [] ∧
  Node.findChildren h this pp ++ children_of (Node.deleteChildren h this pp) this
    ≡ₚ children_of h this.
Proof.
  intros Hthis Honly.
  assert (children_of (Node.deleteChildren h this pp) this
          = filter (fun c => resolve pp h c = false) (children_of h this)) as Hkept.
  { unfold Node.deleteChildren. rewrite children_of_set_children_eq by done.
    apply list_filter_iff. intros c. by destruct (resolve pp h c). }
  split_and!; [done| |].
  - unfold Node.findChildren. rewrite Hkept.
    apply filter_none, Forall_forall.
    intros c [Hc _]%list_elem_of_filter Hc'.
    rewrite <-(Honly h) in Hc'; [congruence|].
    intros n. unfold Node.deleteChildren. by rewrite set_children_models.
  - rewrite Hkept. clear Hkept. unfold Node.findChildren.
    induction (children_of h this) as [|c cs IH]; [done|].
    rewrite !filter_cons. destruct (resolve pp h c) eqn:Hc.
    + rewrite decide_True, decide_False by done. simpl. by apply Permutation_skip.
    + rewrite decide_False, decide_True by done.
      etrans; [symmetry; apply Permutation_middle|]. by apply Permutation_skip.
Qed.

End Children.

(** ** [remove] of a node other than the root *)

Section Remove.
Context {M : Type}.
Implicit Types (h : heap M) (t : rose) (n : loc).

Lemma for_of_app {A St} (xs ys : list A) (body : A → St → res St) (s : St) :
  for_of (xs ++ ys) body s = (s' ← for_of xs body s; for_of ys body s').
Proof.
  revert s. induction xs as [|x xs IH]; intros s; simpl; [done|].
  destruct (body x s) as [s'|e]; simpl; [apply IH|done].
Qed.

Lemma for_of_const {A St} (xs : list A) (body : A → St → res St) (s : St) :
  (∀ x, x ∈ xs → body x s = Ok s) → for_of xs body s = Ok s.
Proof.
  induction xs as [|x xs IH]; intros Hbody; simpl; [done|].
  rewrite Hbody by left. simpl. apply IH. intros y Hy. apply Hbody. by right.
Qed.

(** [removeFromArray] takes out the first entry equal to the node, if any. *)
Lemma removeFromArray_spec (arr : list loc) (x : loc) :
  ((x ∉ arr) ∧ Tree.removeFromArray arr x = arr) ∨
  (∃ before after, arr = before ++ x :: after ∧ (x ∉ before) ∧
                   Tree.removeFromArray arr x = before ++ after).
Proof.
  unfold Tree.removeFromArray, indexOf.
  destruct (findIndex_spec (fun y => bool_decide (y = x)) arr)
    as [[-> Hall]|(before & y & after & -> & Hall & Hy & ->)].
  - left. rewrite bool_decide_eq_false_2 by (intros ?; done). split; [|done].
    intros Hin. rewrite Forall_forall in Hall.
    specialize (Hall x Hin). by apply bool_decide_eq_false in Hall.
  - right. apply bool_decide_eq_true in Hy as ->. exists before, after.
    rewrite bool_decide_eq_true_2 by lia. split_and!; [done| |].
    + intros Hin. rewrite Forall_forall in Hall.
      specialize (Hall x Hin). by apply bool_decide_eq_false in Hall.
    + unfold splice_delete. rewrite Nat2Z.id, take_app_length. f_equal.
      rewrite (cons_middle x), (assoc_L (++)). apply drop_app_length'.
      rewrite length_app. simpl. lia.
Qed.

Lemma removeFromArray_elem (arr : list loc) (x y : loc) :
  y ∈ Tree.removeFromArray arr x → y ∈ arr.
Proof.
  destruct (removeFromArray_spec arr x)
    as [[_ ->]|(before & after & -> & _ & ->)]; [done|].
  rewrite !elem_of_app, elem_of_cons. tauto.
Qed.

Lemma removeFromArray_NoDup (arr : list loc) (x : loc) :
  NoDup arr → Tree.removeFromArray arr x = filter (fun y => y ≠ x) arr.
Proof.
  intros Hnd.
  destruct (removeFromArray_spec arr x)
    as [[Hx ->]|(before & after & -> & Hx & ->)].
  - symmetry. apply filter_all, Forall_forall. by intros y Hy ->.
  - apply NoDup_app in Hnd as (_ & Hdisj & [Hafter _]%NoDup_cons).
    rewrite filter_app, filter_cons_False by (intros ?; done).
    rewrite !filter_all; [done|apply Forall_forall; by intros y Hy ->..].
Qed.

(** A write to a node outside an unfolding leaves it an unfolding. *)
Lemma unfolding_frame h q cs t :
  unfolding h t = true → q ∉ rose_nodes t → unfolding (set_children h q cs) t = true.
Proof.
  induction t as [n ts IH] using rose_ind_kids. intros Ht Hq.
  apply unfolding_Rose in Ht as (nd & Hn & Hc & Hk). apply unfolding_Rose.
  assert (q ≠ n) as Hne by (intros ->; apply Hq, (rose_root_elem (Rose n ts))).
  exists nd. rewrite lookup_set_children_ne by done. split_and!; [done..|].
  rewrite Forall_forall in IH, Hk. apply Forall_forall. intros k Hin.
  apply IH; [done|by apply Hk|]. intros Hqk. apply Hq.
  apply elem_of_rose_nodes. right. eauto.
Qed.

Lemma NoDup_kid_roots (ts : list rose) :
  NoDup (mjoin (rose_nodes <$> ts)) → NoDup (rose_root <$> ts).
Proof.
  induction ts as [|k ts IH]; csimpl; [constructor|].
  intros (_ & Hdisj & Hrest)%NoDup_app. constructor; [|by apply IH].
  intros (k' & Hr & Hk')%list_elem_of_fmap.
  apply (Hdisj (rose_root k)); [apply rose_root_elem|].
  apply list_elem_of_join. exists (rose_nodes k'). split.
  - rewrite Hr. apply rose_root_elem.
  - apply list_elem_of_fmap. eauto.
Qed.

(** In a tree, no [children] array holds a node twice. *)
Lemma tree_children_NoDup h t q :
  unfolding h t = true → NoDup (rose_nodes t) → q ∈ rose_nodes t →
  NoDup (children_of h q).
Proof.
  induction t as [n ts IH] using rose_ind_kids. intros Ht Hnd.
  intros [->|(k & Hk & Hq)]%elem_of_rose_nodes.
  - rewrite (unfolding_children _ _ _ Ht). apply NoDup_kid_roots.
    cbn [rose_nodes] in Hnd. by apply NoDup_cons in Hnd as [_ ?].
  - rewrite Forall_forall in IH. apply (IH k Hk); [|by eapply NoDup_rose_kid|done].
    apply unfolding_kids in Ht. rewrite Forall_forall in Ht. by apply Ht.
Qed.

Lemma kids_disjoint n ts1 k ts2 k' x :
  NoDup (rose_nodes (Rose n (ts1 ++ k :: ts2))) → k' ∈ ts1 ++ ts2 →
  x ∈ rose_nodes k' → x ∈ rose_nodes k → False.
Proof.
  cbn [rose_nodes]. intros [_ Hnd]%NoDup_cons.
  rewrite fmap_app, join_app in Hnd. csimpl in Hnd.
  apply NoDup_app in Hnd as (_ & Hd1 & (_ & Hd2 & _)%NoDup_app).
  intros [Hk'|Hk']%elem_of_app Hx' Hx.
  - apply (Hd1 x); [|apply elem_of_app; by left].
    apply list_elem_of_join. exists (rose_nodes k'). split; [done|].
    apply list_elem_of_fmap. eauto.
  - apply (Hd2 x Hx). apply list_elem_of_join. exists (rose_nodes k').
    split; [done|]. apply list_elem_of_fmap. eauto.
Qed.

Lemma removeFromTree_step fuel h cur node :
  Tree.removeFromTree (S fuel) h cur node =
  for_of (seq 0 (length (children_of
            (set_children h cur (Tree.removeFromArray (children_of h cur) node)) cur)))
    (fun k h1 =>
       match children_of h1 cur !! k with
       | Some childNode => Tree.removeFromTree fuel h1 childNode node
       | None => Ok h1
       end)
    (set_children h cur (Tree.removeFromArray (children_of h cur) node)).
Proof. reflexivity. Qed.

(** On a tree, [removeFromTree] changes the [children] of the one node
    that holds [nodeToRemove], taking that entry out, and nothing else. *)
Lemma removeFromTree_tree node t : ∀ fuel h,
  unfolding h t = true → NoDup (rose_nodes t) → rose_size t ≤ fuel →
  ∃ h', Tree.removeFromTree fuel h (rose_root t) node = Ok h' ∧
        ((∀ q, q ∈ rose_nodes t → ¬ owns h q node) → h' = h) ∧
        (∀ q, q ∈ rose_nodes t → owns h q node →
           h' = set_children h q (Tree.removeFromArray (children_of h q) node)).
Proof.
  induction t as [cur ts IH] using rose_ind_kids. intros fuel h Ht Hnd Hsz.
  destruct fuel as [|fuel]; [simpl in Hsz; lia|].
  simpl in Hsz. apply le_S_n in Hsz. cbn [rose_root].
  rewrite removeFromTree_step.
  pose proof (unfolding_children _ _ _ Ht) as Hcs.
  assert (is_Some (h !! cur)) as Halloc
    by (apply unfolding_Rose in Ht as (nd & -> & _); eauto).
  assert (∀ k, k ∈ ts → unfolding h k = true) as Hkid_u.
  { intros k Hk. apply unfolding_kids in Ht. rewrite Forall_forall in Ht. by apply Ht. }
  assert (∀ k, k ∈ ts → cur ∉ rose_nodes k) as Hkid_cur.
  { intros k Hk Hin. apply (unfolding_acyclic h (Rose cur ts) Ht).
    apply elem_of_rose_below. eauto. }
  assert (∀ k q, k ∈ ts → q ∈ rose_nodes k → q ∈ rose_nodes (Rose cur ts)) as Hkid_in.
  { intros k q Hk Hq. apply elem_of_rose_nodes. right. eauto. }
  (* a kid below which nothing holds the node gives the store back *)
  assert (∀ k h1, k ∈ ts → unfolding h1 k = true →
            (∀ q, q ∈ rose_nodes k → ¬ owns h1 q node) →
            Tree.removeFromTree fuel h1 (rose_root k) node = Ok h1) as Hquiet.
  { intros k h1 Hk Hu Hnone. rewrite Forall_forall in IH.
    pose proof (rose_size_kid _ _ Hk).
    destruct (IH k Hk fuel h1 Hu) as (h' & -> & Hsame & _);
      [by eapply NoDup_rose_kid|lia|]. by rewrite Hsame. }
  destruct (decide (node ∈ children_of h cur)) as [Hown|Hnot].
  - (* the current node holds it *)
    set (h0 := set_children h cur (Tree.removeFromArray (children_of h cur) node)).
    assert (∀ q, q ∈ rose_nodes (Rose cur ts) → owns h q node → q = cur) as Huniq.
    { intros q Hq Hoq. apply (owner_unique h (Rose cur ts) node); try done.
      apply (rose_root_elem (Rose cur ts)). }
    exists h0. split_and!.
    + apply for_of_const. intros idx _.
      destruct (children_of h0 cur !! idx) as [c|] eqn:Hidx; [|done].
      apply list_elem_of_lookup_2 in Hidx. unfold h0 in Hidx.
      rewrite children_of_set_children_eq in Hidx by done.
      apply removeFromArray_elem in Hidx. rewrite Hcs in Hidx.
      apply list_elem_of_fmap in Hidx as (k & -> & Hk).
      apply Hquiet; [done|apply unfolding_frame; auto|].
      intros q Hq Hoq. assert (q ≠ cur) as Hne by (intros ->; by eapply Hkid_cur).
      unfold owns, h0 in Hoq. rewrite children_of_set_children_ne in Hoq by done.
      apply Hne, Huniq; [by eapply Hkid_in|done].
    + intros Hnone. destruct (Hnone cur); [apply (rose_root_elem (Rose cur ts))|done].
    + intros q Hq Hoq. by rewrite (Huniq q Hq Hoq).
  - (* the current node does not hold it *)
    destruct (removeFromArray_spec (children_of h cur) node)
      as [[_ ->]|(before & after & Hsplit & _)];
      [|destruct Hnot; rewrite Hsplit, elem_of_app, elem_of_cons; auto].
    rewrite set_children_same.
    destruct (List.find (fun q => bool_decide (node ∈ children_of h q))
                (rose_below (Rose cur ts))) as [q|] eqn:Hfind.
    + (* a node below holds it: one kid changes the store *)
      apply find_some_elem in Hfind as [Hq Hoq%bool_decide_eq_true].
      apply elem_of_rose_below in Hq as (kj & Hkj & Hq). cbn [rose_kids] in Hkj.
      apply list_elem_of_split in Hkj as (ts1 & ts2 & ->).
      assert (∀ q', q' ∈ rose_nodes (Rose cur (ts1 ++ kj :: ts2)) →
                    owns h q' node → q' = q) as Huniq.
      { intros q' Hq' Hoq'.
        apply (owner_unique h (Rose cur (ts1 ++ kj :: ts2)) node); try done.
        eapply Hkid_in; [|done]. apply elem_of_app. right. left. }
      assert (q ≠ cur) as Hqcur by (intros ->; done).
      assert (kj ∈ ts1 ++ kj :: ts2) as Hkj by (apply elem_of_app; right; left).
      rewrite Forall_forall in IH. pose proof (rose_size_kid _ _ Hkj).
      destruct (IH kj Hkj fuel h (Hkid_u kj Hkj)) as (h1 & Hh1 & _ & Hchange);
        [by eapply NoDup_rose_kid|lia|].
      specialize (Hchange q Hq Hoq). subst h1.
      set (h1 := set_children h q (Tree.removeFromArray (children_of h q) node)) in *.
      exists h1. split_and!.
      * rewrite Hcs, length_fmap, length_app. cbn [length].
        rewrite seq_app. cbn [seq]. rewrite for_of_app.
        rewrite for_of_const.
        2:{ intros idx [_ Hidx]%elem_of_seq. simpl in Hidx.
            rewrite Hcs, fmap_app, lookup_app_l by (by rewrite length_fmap).
            destruct ((rose_root <$> ts1) !! idx) as [c|] eqn:Hc; [|done].
            apply list_elem_of_lookup_2, list_elem_of_fmap in Hc as (k & -> & Hk).
            assert (k ∈ ts1 ++ kj :: ts2) as Hk' by (apply elem_of_app; by left).
            apply Hquiet; [done|by apply Hkid_u|].
            intros q' Hq' Hoq'. rewrite (Huniq q') in Hq'; [|by eapply Hkid_in|done].
            eapply (kids_disjoint cur ts1 kj ts2 k q); [done| |done..].
            apply elem_of_app. by left. }
        simpl. rewrite Hcs at 1. rewrite fmap_app, fmap_cons.
        rewrite list_lookup_middle by (by rewrite length_fmap).
        rewrite Hh1. simpl.
        apply for_of_const. intros idx [Hidx _]%elem_of_seq.
        unfold h1 at 1. rewrite children_of_set_children_ne by done.
        rewrite Hcs, fmap_app, lookup_app_r by (rewrite length_fmap; lia).
        rewrite length_fmap.
        destruct (idx - length ts1) as [|j] eqn:Hj; [lia|]. rewrite fmap_cons. simpl.
        destruct ((rose_root <$> ts2) !! j) as [c|] eqn:Hc; [|done].
        apply list_elem_of_lookup_2, list_elem_of_fmap in Hc as (k & -> & Hk).
        assert (k ∈ ts1 ++ kj :: ts2) as Hk' by (apply elem_of_app; right; by right).
        assert (q ∉ rose_nodes k) as Hqk.
        { intros Hin. eapply (kids_disjoint cur ts1 kj ts2 k q); [done| |done..].
          apply elem_of_app. by right. }
        apply Hquiet; [done|apply unfolding_frame; auto|].
        intros q' Hq' Hoq'. assert (q' ≠ q) as Hne by (intros ->; done).
        unfold owns, h1 in Hoq'. rewrite children_of_set_children_ne in Hoq' by done.
        apply Hne, Huniq; [by eapply Hkid_in|done].
      * intros Hnone. destruct (Hnone q); [by eapply Hkid_in|done].
      * intros q' Hq' Hoq'. by rewrite (Huniq q' Hq' Hoq').
    + (* nothing holds it *)
      rewrite find_none_iff in Hfind.
      exists h. split_and!; [|done|].
      * apply for_of_const. intros idx _.
        destruct (children_of h cur !! idx) as [c|] eqn:Hidx; [|done].
        apply list_elem_of_lookup_2 in Hidx. rewrite Hcs in Hidx.
        apply list_elem_of_fmap in Hidx as (k & -> & Hk).
        apply Hquiet; [done|by apply Hkid_u|].
        intros q Hq Hoq. assert (q ∈ rose_below (Rose cur ts)) as Hb
          by (apply elem_of_rose_below; eauto).
        apply Hfind in Hb. by apply bool_decide_eq_false in Hb.
      * intros q [->|(k & Hk & Hq)]%elem_of_rose_nodes Hoq; [done|].
        assert (q ∈ rose_below (Rose cur ts)) as Hb
          by (apply elem_of_rose_below; eauto).
        apply Hfind in Hb. by apply bool_decide_eq_false in Hb.
Qed.

(** *** The tree that is left *)

Lemma rose_prune_root node t : rose_root (rose_prune node t) = rose_root t.
Proof. by destruct t. Qed.

Lemma filter_prune_roots node (ts : list rose) :
  rose_root <$> filter (fun k => rose_root k ≠ node) (rose_prune node <$> ts)
  = filter (fun c => c ≠ node) (rose_root <$> ts).
Proof.
  induction ts as [|k ts IH]; [done|]. csimpl.
  rewrite !filter_cons, rose_prune_root.
  destruct (decide (rose_root k ≠ node)); csimpl; by rewrite ?rose_prune_root, IH.
Qed.

Lemma elem_of_filter_prune node (ts : list rose) k' :
  k' ∈ filter (fun k => rose_root k ≠ node) (rose_prune node <$> ts) →
  ∃ k, k ∈ ts ∧ k' = rose_prune node k ∧ rose_root k ≠ node.
Proof.
  intros [Hr (k & -> & Hk)%list_elem_of_fmap]%list_elem_of_filter.
  exists k. rewrite rose_prune_root in Hr. by split_and!.
Qed.

(** Taking [node] out of every [children] array of an unfolding gives the
    pruned unfolding. *)
Lemma unfolding_prune h h' node t :
  unfolding h t = true →
  (∀ n nd, n ∈ rose_nodes t → h !! n = Some nd →
     h' !! n = Some (mkTreeNode (model nd) (index nd)
                       (filter (fun c => c ≠ node) (children nd)))) →
  unfolding h' (rose_prune node t) = true.
Proof.
  induction t as [n ts IH] using rose_ind_kids. intros Ht Hh'.
  apply unfolding_Rose in Ht as (nd & Hn & Hc & Hk).
  cbn [rose_prune]. apply unfolding_Rose. eexists. split_and!.
  - apply (Hh' n nd); [apply (rose_root_elem (Rose n ts))|done].
  - simpl. by rewrite Hc, filter_prune_roots.
  - apply Forall_forall. intros k' (k & Hin & -> & _)%elem_of_filter_prune.
    rewrite Forall_forall in IH, Hk. apply IH; [done|by apply Hk|].
    intros m md Hm. apply Hh'. apply elem_of_rose_nodes. right. eauto.
Qed.

Lemma rose_prune_nodes node t x :
  x ∈ rose_nodes (rose_prune node t) → x ∈ rose_nodes t.
Proof.
  induction t as [n ts IH] using rose_ind_kids. cbn [rose_prune].
  rewrite !elem_of_rose_nodes. intros [->|(k' & Hk' & Hx)]; [by left|right].
  apply elem_of_filter_prune in Hk' as (k & Hk & -> & _).
  exists k. split; [done|]. rewrite Forall_forall in IH. by apply IH.
Qed.

Lemma rose_prune_drops node t :
  rose_root t ≠ node → node ∉ rose_nodes (rose_prune node t).
Proof.
  induction t as [n ts IH] using rose_ind_kids. cbn [rose_prune rose_root].
  intros Hn [->|(k' & Hk' & Hx)]%elem_of_rose_nodes; [done|].
  apply elem_of_filter_prune in Hk' as (k & Hk & -> & Hr).
  rewrite Forall_forall in IH. by apply (IH k Hk).
Qed.

Lemma rose_prune_id node t : node ∉ rose_below t → rose_prune node t = t.
Proof.
  induction t as [n ts IH] using rose_ind_kids. intros Hnot.
  cbn [rose_prune]. f_equal.
  assert (∀ k, k ∈ ts → node ∉ rose_nodes k) as Hkids.
  { intros k Hk Hin. apply Hnot, elem_of_rose_below. eauto. }
  clear Hnot. induction IH as [|k ts Hk _ IHts]; [done|]. csimpl.
  rewrite Hk.
  - rewrite filter_cons_True.
    + f_equal. apply IHts. intros k' Hk'. apply Hkids. by right.
    + intros Hr. apply (Hkids k); [left|]. rewrite <-Hr. apply rose_root_elem.
  - intros Hin. apply (Hkids k); [left|].
    rewrite rose_nodes_root_below. by right.
Qed.

Lemma filter_prune_id node (ts : list rose) :
  (∀ k, k ∈ ts → node ∉ rose_nodes k) →
  filter (fun k => rose_root k ≠ node) (rose_prune node <$> ts) = ts.
Proof.
  induction ts as [|k ts IH]; intros Hkids; [done|]. csimpl.
  rewrite rose_prune_id.
  - rewrite filter_cons_True.
    + f_equal. apply IH. intros k' Hk'. apply Hkids. by right.
    + intros Hr. apply (Hkids k); [left|]. rewrite <-Hr. apply rose_root_elem.
  - intros Hin. apply (Hkids k); [left|]. rewrite rose_nodes_root_below. by right.
Qed.

(** In a tree, pruning takes away exactly the unfolding below [node]. *)
Lemma rose_prune_size h node t s :
  unfolding h t = true → NoDup (rose_nodes t) → node ∈ rose_below t →
  unfolding h s = true → rose_root s = node →
  rose_size (rose_prune node t) + rose_size s = rose_size t.
Proof.
  intros Ht Hnd Hin Hs Hr. revert Ht Hnd Hin.
  induction t as [n ts IH] using rose_ind_kids. intros Ht Hnd Hin.
  apply elem_of_rose_below in Hin as (kj & Hkj & Hin). cbn [rose_kids] in Hkj.
  apply list_elem_of_split in Hkj as (ts1 & ts2 & ->).
  assert (kj ∈ ts1 ++ kj :: ts2) as Hkj by (apply elem_of_app; right; left).
  assert (unfolding h kj = true) as Hu.
  { apply unfolding_kids in Ht. rewrite Forall_forall in Ht. by apply Ht. }
  cbn [rose_prune rose_size]. rewrite fmap_app, fmap_cons, filter_app, filter_cons.
  rewrite !filter_prune_id.
  2:{ intros k Hk Hx. eapply (kids_disjoint n ts1 kj ts2 k node); [done| |done..].
      apply elem_of_app. by right. }
  2:{ intros k Hk Hx. eapply (kids_disjoint n ts1 kj ts2 k node); [done| |done..].
      apply elem_of_app. by left. }
  rewrite rose_prune_root.
  destruct (decide (rose_root kj ≠ node)) as [Hne|Heq].
  - rewrite !sum_list_with_app. cbn [sum_list_with].
    rewrite Forall_forall in IH.
    assert (rose_size (rose_prune node kj) + rose_size s = rose_size kj) as Hkj_sz.
    { apply IH; [done..|by eapply NoDup_rose_kid|].
      rewrite rose_nodes_root_below in Hin.
      apply elem_of_cons in Hin as [Heq|?]; [by destruct Hne|done]. }
    lia.
  - apply dec_stable in Heq.
    assert (kj = s) as -> by (by apply (unfolding_unique h); rewrite ?Hr).
    rewrite !sum_list_with_app. cbn [sum_list_with]. lia.
Qed.

(** The effect of [remove] on a tree, for a node other than the root. *)
Lemma remove_tree_effect fuel (tr : Tree M) h r t node :
  root tr = Some r → is_tree h r t → rose_size t ≤ fuel → node ≠ r →
  (∀ q, tree_node h r q → owns h q node →
     Tree.remove fuel tr h node = Ok (tr, Node.removeChild h q (Some node)) ∧
     ¬ owns (Node.removeChild h q (Some node)) q node) ∧
  (¬ tree_node h r node → Tree.remove fuel tr h node = Ok (tr, h)).
Proof.
  intros Hroot (Ht & <- & Hnd) Hsz Hne. unfold Tree.remove.
  rewrite Hroot, bool_decide_eq_false_2 by done.
  destruct (removeFromTree_tree node t fuel h Ht Hnd Hsz) as (h' & -> & Hnone & Hsome).
  split.
  - intros q Hq%(rose_nodes_reach h t) Hoq; [|done].
    rewrite (Hsome q Hq Hoq). unfold Node.removeChild.
    rewrite removeFromArray_NoDup by by eapply tree_children_NoDup.
    split; [done|]. unfold owns.
    assert (is_Some (h !! q)) as Hq_alloc.
    { unfold owns, children_of in Hoq. destruct (h !! q); [eauto|].
      by apply elem_of_nil in Hoq. }
    rewrite children_of_set_children_eq by done.
    intros [Hc _]%list_elem_of_filter. by apply Hc.
  - intros Hout. simpl. rewrite Hnone; [done|].
    intros q Hq Hoq. apply Hout. eapply rtc_r; [|done].
    by apply (rose_nodes_reach h t).
Qed.

(** X6: on a tree, [remove] of a node other than the root that a node [q]
    of the tree holds has the effect of [q.removeChild(node)], after which
    [q] no longer holds the node; [remove] of a node outside the tree
    changes nothing.  The tree keeps its root either way. *)
Theorem remove_detaches_from_parent fuel (tr : Tree M) h r t node :
  root tr = Some r → is_tree h r t → rose_size t ≤ fuel → node ≠ r →
  (∀ q, tree_node h r q → owns h q node →
     Tree.remove fuel tr h node = Ok (tr, Node.removeChild h q (Some node)) ∧
     ¬ owns (Node.removeChild h q (Some node)) q node) ∧
  (¬ tree_node h r node → Tree.remove fuel tr h node = Ok (tr, h)).
Proof. apply remove_tree_effect. Qed.

End Remove.

Section RemoveAll.
Context {M : Type}.
Implicit Types (h : heap M) (t : rose) (n : loc).

(** X7: on a tree, after [remove] of a node of the tree other than the
    root, [all] no longer lists the node: it lists exactly the nodes still
    reached from the root, all of which were nodes of the tree before, and
    their number is the node count of the tree less the node count below
    and including the removed node. *)
Theorem remove_drops_subtree fuel (tr : Tree M) h r t node q (str : traversal) :
  root tr = Some r → strategy tr = traversal_fn str → is_tree h r t →
  rose_size t ≤ fuel → node ≠ r → tree_node h r q → owns h q node →
  ∃ h' l s,
    Tree.remove fuel tr h node = Ok (tr, h') ∧
    Tree.all fuel tr h' = Ok (Some l) ∧
    (node ∉ l) ∧
    (∀ n, n ∈ l ↔ tree_node h' r n) ∧
    (∀ n, n ∈ l → tree_node h r n) ∧
    unfolding h s = true ∧ rose_root s = node ∧
    length l + rose_size s = rose_size t.
Proof.
  intros Hroot Hstrat Htree Hsz Hne Hq Hoq.
  destruct (remove_tree_effect fuel tr h r t node Hroot Htree Hsz Hne)
    as [Hrem _].
  destruct (Hrem q Hq Hoq) as [Hremove _]. clear Hrem.
  destruct Htree as (Ht & <- & Hnd).
  apply (rose_nodes_reach h t) in Hq; [|done].
  pose proof (owned_below h t q node Ht Hq Hoq) as Hbelow.
  destruct (unfolding_below h t node Ht Hbelow) as (s & Hs & Hr & _).
  pose proof (rose_prune_size h node t s Ht Hnd Hbelow Hs Hr) as Hsize.
  set (h' := Node.removeChild h q (Some node)) in *.
  assert (unfolding h' (rose_prune node t) = true) as Hprune.
  { apply (unfolding_prune h); [done|]. intros n nd Hn Hlook.
    unfold h', Node.removeChild, set_children.
    destruct (decide (n = q)) as [->|Hnq].
    - rewrite lookup_alter_eq, Hlook. simpl. unfold children_of. by rewrite Hlook.
    - rewrite lookup_alter_ne, Hlook by done. destruct nd as [m i cs]. simpl.
      rewrite filter_all; [done|]. apply Forall_forall. intros c Hc ->.
      apply Hnq. apply (owner_unique h t node); try done.
      unfold owns, children_of. by rewrite Hlook. }
  destruct (traversal_unfolding h' (rose_prune node t) str Hprune) as (l & Hp & Hl).
  exists h', l, s. split_and!; try done.
  - unfold Tree.all. rewrite Hroot, Hstrat.
    rewrite <-(rose_prune_root node t), Hl; [done|lia].
  - rewrite Hp. by apply rose_prune_drops.
  - intros n. rewrite Hp, <-(rose_prune_root node t). by apply rose_nodes_reach.
  - intros n. rewrite Hp. intros Hn%rose_prune_nodes.
    by apply (rose_nodes_reach h t).
  - by rewrite Hp, length_rose_nodes.
Qed.

End RemoveAll.

(** ** [getParent] and [move] on a tree *)

Section Parents.
Context {M : Type}.
Implicit Types (h : heap M) (t : rose) (n : loc).

(** X8: in a tree, [getParent] answers the node that holds [child] when
    that node lies strictly below the receiver, and the absent value when
    no node strictly below the receiver holds it, which includes the case
    of a child held by the receiver itself. *)
Theorem getParent_in_tree h p t c fuel :
  is_tree h p t → rose_size t ≤ fuel →
  (∀ q, tc (owns h) p q → owns h q c →
     Node.getParent fuel h p (Some c) = Ok (Some q)) ∧
  ((∀ q, tc (owns h) p q → ¬ owns h q c) →
     Node.getParent fuel h p (Some c) = Ok None) ∧
  (owns h p c → Node.getParent fuel h p (Some c) = Ok None).
Proof.
  intros Htree Hsz. split_and!.
  - intros q Hq Hoq. apply (getParent_owner_below h p t q c fuel); try done.
    destruct Htree as (Ht & <- & _). by apply (rose_below_reach h t).
  - intros Hnone. destruct Htree as (Ht & <- & _).
    rewrite getParent_unfolding by done. f_equal. apply find_none_iff.
    intros q Hq. apply bool_decide_eq_false. apply Hnone.
    by apply (rose_below_reach h t).
  - intros Hown. by apply (getParent_direct_child h p t c fuel).
Qed.

(** X9: on an acyclic tree, [move] of a node of the tree never takes the
    node out of any [children] array: it pushes the node onto the children
    of [newParent] and leaves every other node, the former parent too, as
    it was. *)
Theorem move_attaches_without_detaching fuel (tr : Tree M) h r t node newParent :
  root tr = Some r → unfolding h t = true → rose_root t = r →
  rose_size t ≤ fuel → tree_node h r node → is_Some (h !! newParent) →
  ∃ h', Tree.move fuel tr h node newParent = Ok h' ∧
        children_of h' newParent = children_of h newParent ++ [node] ∧
        (∀ n, n ≠ newParent → h' !! n = h !! n) ∧
        (∀ former, owns h former node → owns h' former node).
Proof.
  intros Hroot Ht <- Hsz Hnode Hnew.
  apply (rose_nodes_reach h t) in Hnode; [|done].
  eexists. split; [by apply (move_only_attaches fuel tr h t)|].
  unfold Node.addChild. split_and!.
  - by rewrite children_of_set_children_eq.
  - intros n Hn. by rewrite lookup_set_children_ne.
  - intros former Hown. unfold owns in *.
    destruct (decide (former = newParent)) as [->|Hne].
    + rewrite children_of_set_children_eq by done. apply elem_of_app. by left.
    + by rewrite children_of_set_children_ne.
Qed.

End Parents.

(** ** [walk] and the depth-first sequences *)

Section Walk.
Context {M : Type}.
Implicit Types (h : heap M) (t : rose) (n : loc).

Lemma foldl_count {A} (l : list A) (k : nat) :
  foldl (fun (w : nat) (_ : A) => S w) k l = k + length l.
Proof.
  revert k. induction l as [|x l IH]; intros k; simpl; [lia|].
  rewrite IH. lia.
Qed.

(** X10: on an acyclic tree, [walk] calls the callback once for every node,
    children before their parent and the root last, whatever strategy the
    tree carries; a callback that counts its calls ends at the node count. *)
Theorem walk_visits_post_order {W : Type} fuel (tr : Tree M) h r t
    (callback : loc → W → W) (w : W) :
  root tr = Some r → unfolding h t = true → rose_root t = r → rose_size t ≤ fuel →
  Tree.walk fuel tr h callback w
    = Ok (foldl (fun w node => callback node w) w (post_order t)) ∧
  last (post_order t) = Some r ∧
  Tree.walk fuel tr h (fun _ count => S count) 0 = Ok (rose_size t).
Proof.
  intros Hroot Ht <- Hsz. unfold Tree.walk. rewrite Hroot.
  destruct (depthFirstSearch_unfolding h BaseIn t fuel Ht Hsz) as [Hin _].
  cbn [forward] in Hin. rewrite Hin.
  change (pushes_before InOrder) with false.
  change (pushes_after InOrder) with true.
  rewrite rose_dfs_post. simpl. split_and!; [done| |].
  - destruct t as [n ts]. cbn [post_order rose_root]. apply last_snoc.
  - rewrite foldl_count. simpl.
    by rewrite post_order_Permutation, length_rose_nodes.
Qed.

End Walk.

Section Sequences.
Context {M : Type}.
Implicit Types (h : heap M) (t : rose) (n : loc).

(** X11: on an acyclic graph, the pre-order sequence of a node is the node
    followed by the pre-order sequences of its children, in the order of
    its [children] array, and the post-order sequence is the post-order
    sequences of its children followed by the node. *)
Theorem depthFirstSearch_of_children h t node fuel :
  unfolding h t = true → rose_root t = node → rose_size t ≤ fuel →
  ∃ pre post,
    Forall2 (fun c l => Node.depthFirstSearch fuel h c PreOrder = Ok l)
      (children_of h node) pre ∧
    Node.depthFirstSearch fuel h node PreOrder = Ok (node :: mjoin pre) ∧
    Forall2 (fun c l => Node.depthFirstSearch fuel h c PostOrder = Ok l)
      (children_of h node) post ∧
    Node.depthFirstSearch fuel h node PostOrder = Ok (mjoin post ++ [node]).
Proof.
  intros Ht <- Hsz. destruct t as [n ts].
  exists (rose_nodes <$> ts), (post_order <$> ts). cbn [rose_root].
  rewrite (unfolding_children _ _ _ Ht).
  destruct (depthFirstSearch_unfolding h BasePre _ fuel Ht Hsz) as [Hpre _].
  destruct (depthFirstSearch_unfolding h BasePost _ fuel Ht Hsz) as [Hpost _].
  cbn [forward] in Hpre, Hpost.
  change (pushes_before PreOrder) with true in Hpre.
  change (pushes_after PreOrder) with false in Hpre.
  change (pushes_before PostOrder) with false in Hpost.
  change (pushes_after PostOrder) with true in Hpost.
  rewrite rose_dfs_pre in Hpre. rewrite rose_dfs_post in Hpost.
  assert (∀ k, k ∈ ts → unfolding h k = true ∧ rose_size k ≤ fuel) as Hkids.
  { intros k Hk. pose proof (rose_size_kid _ _ Hk). simpl in Hsz. split; [|lia].
    apply unfolding_kids in Ht. rewrite Forall_forall in Ht. by apply Ht. }
  split_and!; [|done| |done].
  - apply Forall2_fmap, Forall_Forall2_diag, Forall_forall. intros k Hk.
    destruct (Hkids k Hk) as [Hu Hle].
    destruct (depthFirstSearch_unfolding h BasePre k fuel Hu Hle) as [Hk_pre _].
    cbn [forward] in Hk_pre.
    change (pushes_before PreOrder) with true in Hk_pre.
    change (pushes_after PreOrder) with false in Hk_pre.
    by rewrite rose_dfs_pre in Hk_pre.
  - apply Forall2_fmap, Forall_Forall2_diag, Forall_forall. intros k Hk.
    destruct (Hkids k Hk) as [Hu Hle].
    destruct (depthFirstSearch_unfolding h BasePost k fuel Hu Hle) as [Hk_post _].
    cbn [forward] in Hk_post.
    change (pushes_before PostOrder) with false in Hk_post.
    change (pushes_after PostOrder) with true in Hk_post.
    by rewrite rose_dfs_post in Hk_post.
Qed.

Lemma levels_nil d : levels d [] = [].
Proof. induction d as [|d IH]; [done|]. simpl. by rewrite IH. Qed.

Lemma rose_size_kids (ts : list rose) :
  sum_list_with rose_size (ts ≫= rose_kids) + length ts = sum_list_with rose_size ts.
Proof.
  induction ts as [|[n ks] ts IH]; [done|].
  rewrite bind_cons, sum_list_with_app. simpl. lia.
Qed.

(** The loop of [breadthFirstOrder] on a queue of acyclic nodes appends
    their nodes level by level. *)
Lemma breadthFirstOrder_loop_levels h : ∀ d ts result fuel,
  Forall (fun k => unfolding h k = true) ts →
  sum_list_with rose_size ts ≤ d → sum_list_with rose_size ts ≤ fuel →
  Node.breadthFirstOrder_loop fuel h (rose_root <$> ts) result
    = Ok (result ++ levels d ts).
Proof.
  induction d as [|d IHd]; intros ts result fuel Hts Hd Hfuel.
  { destruct ts as [|k ts]; [destruct fuel; simpl; by rewrite app_nil_r|].
    pose proof (rose_size_pos k). simpl in Hd. lia. }
  cbn [levels].
  (* the rest of the current level, with the kids of its processed part *)
  assert (∀ ts pend result fuel,
            Forall (fun k => unfolding h k = true) ts →
            Forall (fun k => unfolding h k = true) pend →
            sum_list_with rose_size pend
              + sum_list_with rose_size (ts ≫= rose_kids) ≤ d →
            sum_list_with rose_size ts + sum_list_with rose_size pend ≤ fuel →
            Node.breadthFirstOrder_loop fuel h
              ((rose_root <$> ts) ++ (rose_root <$> pend)) result
            = Ok (result ++ (rose_root <$> ts)
                    ++ levels d (pend ++ (ts ≫= rose_kids)))) as Hlevel.
  { clear ts result fuel Hts Hd Hfuel.
    induction ts as [|[n ks] ts IHts]; intros pend result fuel Hts Hpend Hd Hfuel.
    - simpl in *. rewrite app_nil_r. apply IHd; [done|lia..].
    - inversion Hts as [|? ? Hk Hts']; subst.
      rewrite bind_cons, sum_list_with_app in Hd. simpl in Hd, Hfuel.
      destruct fuel as [|fuel]; [lia|]. csimpl.
      rewrite (unfolding_children _ _ _ Hk), <-(assoc_L (++)), <-fmap_app.
      rewrite IHts; [|done|..].
      + by rewrite <-!(assoc_L (++)).
      + apply Forall_app. split; [done|]. by eapply unfolding_kids.
      + rewrite sum_list_with_app. lia.
      + rewrite sum_list_with_app. lia. }
  specialize (Hlevel ts [] result fuel Hts (Forall_nil_2 _)).
  simpl in Hlevel. rewrite app_nil_r in Hlevel. apply Hlevel; [|lia].
  pose proof (rose_size_kids ts). destruct ts; simpl in *; lia.
Qed.

(** X12: on an acyclic graph, [breadthFirstOrder] lists the nodes level by
    level: the node itself, then its children in the order of its
    [children] array, then the children of those, and so on. *)
Theorem breadthFirstOrder_level_order h t node fuel :
  unfolding h t = true → rose_root t = node → rose_size t ≤ fuel →
  Node.breadthFirstOrder fuel h node = Ok (levels (rose_size t) [t]) ∧
  ∃ deeper, levels (rose_size t) [t] = node :: children_of h node ++ deeper.
Proof.
  intros Ht <- Hsz. split.
  - unfold Node.breadthFirstOrder.
    apply (breadthFirstOrder_loop_levels h (rose_size t) [t] [] fuel);
      [by constructor|simpl; lia..].
  - destruct t as [n ks]. cbn [rose_root]. rewrite (unfolding_children _ _ _ Ht).
    cbn [rose_size levels]. csimpl. rewrite app_nil_r.
    destruct (sum_list_with rose_size ks) as [|d] eqn:Hks.
    + destruct ks as [|k ks]; [by exists []|].
      pose proof (rose_size_pos k). simpl in Hks. lia.
    + cbn [levels]. eauto.
Qed.

End Sequences.

(** ** What [parse] builds *)

Section ParseShape.
Context {M : Type}.
Implicit Types (h : heap M) (d : jsdata M) (n : loc).

Lemma all_indexed_impl {A} (P Q : A → nat → loc → Prop) (ds : list A) :
  Forall (fun x => ∀ i k, P x i k → Q x i k) ds →
  ∀ ks i, all_indexed P ds ks i → all_indexed Q ds ks i.
Proof.
  induction 1 as [|x ds Hx _ IH]; intros [|k ks] i; simpl; try done.
  intros [? ?]. split; auto.
Qed.

(** [built] is kept by a smaller set to avoid and by changes of the store
    outside the nodes it speaks of. *)
Lemma built_change h h' (A A' : gset loc) d : ∀ idx n,
  built h A d idx n → A' ⊆ A →
  (∀ x, x ∈ dom h → x ∉ A → h' !! x = h !! x) →
  built h' A' d idx n.
Proof.
  induction d as [|m i0|m i0 cs IH] using jsdata_ind_entries;
    intros idx n Hb Hsub Hsame; [done| |].
  - destruct Hb as (Hn & kids & Hlook & ->). split; [set_solver|].
    exists []. split; [|done]. rewrite Hsame; [done| |done].
    apply elem_of_dom. eauto.
  - destruct Hb as (Hn & kids & Hlook & Hall). split; [set_solver|].
    exists kids. split.
    + rewrite Hsame; [done| |done]. apply elem_of_dom. eauto.
    + revert Hall. apply all_indexed_impl.
      eapply Forall_impl; [exact IH|]. intros e He i k Hbe. by apply He.
Qed.

Lemma grows_at_dom h h' p cs :
  grows_at h h' p cs → is_Some (h !! p) → dom h ⊆ dom h'.
Proof.
  intros [Hp Hframe] [pnd Hpnd] n Hn. apply elem_of_dom.
  destruct (decide (n = p)) as [->|Hne]; [rewrite (Hp pnd Hpnd); eauto|].
  rewrite Hframe by done. by apply elem_of_dom.
Qed.

Lemma grows_at_refl h p : grows_at h h p [].
Proof.
  split; [|done]. intros [m i cs] Hp. simpl. by rewrite app_nil_r.
Qed.

Lemma grows_at_trans h h1 h2 p cs1 cs2 :
  is_Some (h !! p) → grows_at h h1 p cs1 → grows_at h1 h2 p cs2 →
  grows_at h h2 p (cs1 ++ cs2).
Proof.
  intros Hsome Hg1 Hg2. pose proof (grows_at_dom _ _ _ _ Hg1 Hsome) as Hdom.
  destruct Hg1 as [Hp1 Hf1], Hg2 as [Hp2 Hf2]. split.
  - intros pnd Hp. rewrite (Hp2 _ (Hp1 _ Hp)). simpl. by rewrite (assoc_L (++)).
  - intros n Hn Hne. rewrite Hf2, Hf1; [done..|by apply Hdom|done].
Qed.

(** Making a node and pushing it onto the children of [parentNode]. *)
Lemma new_child_grows h parentNode m idx :
  is_Some (h !! parentNode) →
  let c := (new_TreeNode h m idx).1 in
  let h2 := Node.addChild (new_TreeNode h m idx).2 parentNode (Some c) in
  (c ∉ dom h) ∧ c ≠ parentNode ∧ grows_at h h2 parentNode [c] ∧
  h2 !! c = Some (mkTreeNode m idx []).
Proof.
  intros Hparent. simpl.
  assert (fresh (dom h) ∉ dom h) as Hfresh by apply is_fresh.
  assert (fresh (dom h) ≠ parentNode) as Hne
    by (intros Heq; apply Hfresh; rewrite Heq; by apply elem_of_dom).
  split_and!; [done..| |].
  - split.
    + intros pnd Hp. unfold Node.addChild, set_children, children_of.
      by rewrite lookup_alter_eq, lookup_insert_ne, Hp.
    + intros n Hn Hnp. unfold Node.addChild, set_children.
      rewrite lookup_alter_ne, lookup_insert_ne; [done| |done].
      intros <-. done.
  - unfold Node.addChild, set_children.
    by rewrite lookup_alter_ne, lookup_insert_eq.
Qed.

Lemma forEach_builds (l : list (jsdata M)) :
  Forall callback_builds l →
  ∀ p k h, forallb entries_present l = true → is_Some (h !! p) →
    ∃ h' cs, forEach (Tree.parseChildren_callback p) l k h = Ok h' ∧
             grows_at h h' p cs ∧
             all_indexed
               (fun e i c => built h' (dom h) e (Some (Z.of_nat i + 1)%Z) c) l cs k.
Proof.
  induction 1 as [|e l He _ IH]; intros p k h Hl Hp.
  - exists h, []. split_and!; [done|apply grows_at_refl|done].
  - simpl in Hl. apply andb_true_iff in Hl as [Hpe Hpl].
    destruct (He p k h Hpe Hp) as (h1 & c1 & Hcb & Hg1 & Hb1).
    assert (is_Some (h1 !! p)) as Hp1.
    { destruct Hp as [pnd Hpnd]. rewrite (proj1 Hg1 _ Hpnd). eauto. }
    destruct (IH p (S k) h1 Hpl Hp1) as (h2 & cs & Hfe & Hg2 & Hall).
    exists h2, (c1 :: cs). cbn [forEach]. rewrite Hcb. simpl. split_and!.
    + exact Hfe.
    + by apply (grows_at_trans h h1 h2 p [c1] cs).
    + apply (built_change h1 h2 (dom h) (dom h)); [done..|].
      intros x Hx Hnot. apply (proj2 Hg2); [done|].
      intros ->. apply Hnot. by apply elem_of_dom.
    + revert Hall. apply all_indexed_impl, Forall_forall.
      intros e' _ i c Hb. apply (built_change h2 h2 (dom h1) (dom h)); [done| |done].
      by eapply grows_at_dom.
Qed.

Lemma callback_builds_all (d : jsdata M) : callback_builds d.
Proof.
  induction d as [|m i0|m i0 cs IH] using jsdata_ind_entries;
    intros parentNode i h Hd Hparent; [done| |].
  - destruct (new_child_grows h parentNode m (Some (Z.of_nat i + 1)%Z) Hparent)
      as (Hfresh & Hne & Hgrow & Hc).
    eexists _, _. split; [done|]. split; [exact Hgrow|].
    split; [done|]. by exists [].
  - destruct (new_child_grows h parentNode m (Some (Z.of_nat i + 1)%Z) Hparent)
      as (Hfresh & Hne & Hgrow & Hc).
    cbn [Tree.parseChildren_callback].
    destruct (new_TreeNode h m (Some (Z.of_nat i + 1)%Z)) as [c h1] eqn:Hnew.
    cbn [fst snd] in *.
    set (h2 := Node.addChild h1 parentNode (Some c)) in *.
    assert (dom h ⊆ dom h2) as Hdom2 by by eapply grows_at_dom.
    destruct (forEach_builds cs IH c 0 h2 Hd) as (h3 & kids & Hfe & Hg3 & Hall);
      [eauto|].
    exists h3, c. split; [done|]. split_and!.
    + split.
      * intros pnd Hp. rewrite (proj2 Hg3); [by apply (proj1 Hgrow)| |done].
        apply elem_of_dom. rewrite (proj1 Hgrow _ Hp). eauto.
      * intros n Hn Hnp. rewrite (proj2 Hg3); [by apply (proj2 Hgrow)| |].
        -- by apply Hdom2.
        -- intros ->. done.
    + split; [done|]. exists kids. split; [by rewrite (proj1 Hg3 _ Hc)|].
      revert Hall. apply all_indexed_impl, Forall_forall.
      intros e _ j k Hb. by apply (built_change h3 h3 (dom h2) (dom h)).
Qed.

(** An absent entry anywhere makes the callback raise a TypeError. *)
Lemma callback_throws (d : jsdata M) : ∀ parentNode i h,
  entries_present d = false →
  Tree.parseChildren_callback parentNode d i h = Err TypeError.
Proof.
  induction d as [|m i0|m i0 cs IH] using jsdata_ind_entries;
    intros parentNode i h Hd; [done..|].
  cbn [Tree.parseChildren_callback].
  destruct (new_TreeNode h m (Some (Z.of_nat i + 1)%Z)) as [c h1].
  simpl in Hd. generalize (Node.addChild h1 parentNode (Some c)). generalize 0.
  induction IH as [|e cs He _ IHcs]; intros k h2; [done|].
  simpl in Hd. cbn [forEach]. destruct (entries_present e) eqn:Hpe.
  - destruct (parseChildren_callback_total e c k h2 Hpe) as (h3 & -> & _).
    simpl. by apply IHcs.
  - by rewrite He.
Qed.

(** X13: for an input with a [children] array in which every entry, at
    every depth, is an object, [parse] returns a root that was not in the
    store before and leaves every node that was there as it was.  The root
    carries the model and the index of the input; each other node carries
    the model of its entry and its position among its siblings, counted
    from one, as index, whatever index the entry has; the [children] arrays
    follow the order of the input. *)
Theorem parse_builds_tree h (m : M) (i : option Z) (cs : list (jsdata M)) :
  forallb entries_present cs = true →
  ∃ r h', Tree.parse h (JObject m i (Some cs)) = Ok (Some r, h') ∧
          (∀ n, n ∈ dom h → h' !! n = h !! n) ∧
          built h' (dom h) (JObject m i (Some cs)) i r.
Proof.
  intros Hcs. cbn [Tree.parse Tree.parseChildren].
  destruct (new_TreeNode h m i) as [r h1] eqn:Hnew.
  assert (r ∉ dom h) as Hfresh by (injection Hnew as <- _; apply is_fresh).
  assert (h1 !! r = Some (mkTreeNode m i [])) as Hr
    by (injection Hnew as <- <-; apply lookup_insert_eq).
  assert (∀ n, n ∈ dom h → h1 !! n = h !! n) as Hold.
  { intros n Hn. injection Hnew as <- <-. rewrite lookup_insert_ne; [done|].
    intros <-. done. }
  assert (dom h ⊆ dom h1) as Hdom.
  { intros n Hn. apply elem_of_dom. rewrite Hold by done. by apply elem_of_dom. }
  assert (Forall callback_builds cs) as Hcb
    by (apply Forall_forall; intros e _; apply callback_builds_all).
  destruct (forEach_builds cs Hcb r 0 h1 Hcs) as (h' & kids & -> & Hg & Hall);
    [eauto|].
  exists r, h'. split; [done|]. split.
  - intros n Hn. rewrite (proj2 Hg), Hold; [done..|by apply Hdom|].
    intros ->. done.
  - split; [done|]. exists kids. split; [by rewrite (proj1 Hg _ Hr)|].
    revert Hall. apply all_indexed_impl, Forall_forall.
    intros e _ j k Hb. by apply (built_change h' h' (dom h1) (dom h)).
Qed.

(** X14: an absent entry in a [children] array, at any depth, makes
    [parse] raise a TypeError; an absent input gives the absent root and
    leaves the store as it is. *)
Theorem parse_absent_entry_throws h (m : M) (i : option Z) (cs : list (jsdata M)) :
  (forallb entries_present cs = false →
     Tree.parse h (JObject m i (Some cs)) = Err TypeError) ∧
  Tree.parse h JAbsent = Ok (None, h).
Proof.
  split; [|done]. intros Hcs. cbn [Tree.parse Tree.parseChildren].
  destruct (new_TreeNode h m i) as [r h1].
  assert (forEach (Tree.parseChildren_callback r) cs 0 h1 = Err TypeError) as ->;
    [|done].
  revert Hcs. generalize h1. generalize 0.
  induction cs as [|e cs IH]; intros k h2 Hcs; [done|].
  simpl in Hcs. cbn [forEach]. destruct (entries_present e) eqn:Hpe.
  - destruct (parseChildren_callback_total e r k h2 Hpe) as (h3 & -> & _).
    simpl. by apply IH.
  - by rewrite callback_throws.
Qed.

End ParseShape.

(** ** Cyclic graphs *)

Section Cycles.
Context {M : Type}.
Implicit Types (h : heap M) (n : loc).

Lemma reaches_cycle_step h n :
  reaches_cycle h n → ∃ c, owns h n c ∧ reaches_cycle h c.
Proof.
  intros (m & Hreach & Hcyc).
  apply rtc_inv in Hreach as [->|(c & Hc & Hreach)].
  - inversion Hcyc as [? ? Hc|? c ? Hc Hcm]; subst.
    + exists m. split; [done|]. exists m. split; [apply rtc_refl|done].
    + exists c. split; [done|]. exists c. split; [apply rtc_refl|].
      by eapply tc_r.
  - exists c. split; [done|]. by exists m.
Qed.

Lemma for_of_error {A St} (l : list A) (body : A → St → res St) (s : St) e :
  (∀ x s' e', body x s' = Err e' → e' = OutOfFuel) →
  for_of l body s = Err e → e = OutOfFuel.
Proof.
  intros Hbody. revert s. induction l as [|x l IH]; intros s; simpl; [done|].
  destruct (body x s) as [s'|e'] eqn:Hx; simpl; [apply IH|].
  intros [= <-]. by eapply Hbody.
Qed.

Lemma traverse_error h o : ∀ fuel n result e,
  Node.depthFirstSearch_traverse fuel h o n result = Err e → e = OutOfFuel.
Proof.
  induction fuel as [|fuel IH]; intros n result e; [by intros [= <-]|].
  rewrite traverse_step.
  destruct (for_of _ _ _) as [r|e'] eqn:Hloop; simpl; [done|].
  intros [= <-]. eapply for_of_error; [|done]. intros x s' e''. apply IH.
Qed.

(** The helper of [depthFirstSearch] does not return from a node that
    reaches a cycle. *)
Lemma traverse_cycle h o : ∀ fuel n result,
  reaches_cycle h n →
  Node.depthFirstSearch_traverse fuel h o n result = Err OutOfFuel.
Proof.
  induction fuel as [|fuel IH]; intros n result Hn; [done|].
  rewrite traverse_step.
  destruct (reaches_cycle_step h n Hn) as (c & Hc & Hcyc).
  apply list_elem_of_split in Hc as (l1 & l2 & ->).
  rewrite for_of_app.
  destruct (for_of l1 _ _) as [s1|e] eqn:Hl1; simpl.
  - by rewrite IH.
  - f_equal. eapply for_of_error; [|done]. intros x s' e'. apply traverse_error.
Qed.

Lemma breadthFirstOrder_loop_cycle h : ∀ fuel queue result,
  (∃ n, n ∈ queue ∧ reaches_cycle h n) →
  Node.breadthFirstOrder_loop fuel h queue result = Err OutOfFuel.
Proof.
  induction fuel as [|fuel IH]; intros queue result (n & Hn & Hcyc).
  - destruct queue; [by apply elem_of_nil in Hn|done].
  - destruct queue as [|x queue]; [by apply elem_of_nil in Hn|].
    simpl. apply IH. apply elem_of_cons in Hn as [->|Hn].
    + destruct (reaches_cycle_step h x Hcyc) as (c & Hc & Hcyc').
      exists c. split; [|done]. apply elem_of_app. by right.
    + exists n. split; [|done]. apply elem_of_app. by left.
Qed.

(** X15: from a node that reaches a cycle of [children] references, no
    depth-first order and no breadth-first traversal returns, however deep
    the recursion may go, and neither does [all] of a tree with that root
    and one of these strategies, nor [walk]. *)
Theorem traversals_never_return_on_cycle h node fuel :
  reaches_cycle h node →
  (∀ o, Node.depthFirstSearch fuel h node o = Err OutOfFuel) ∧
  Node.breadthFirstOrder fuel h node = Err OutOfFuel ∧
  (∀ (tr : Tree M) s, root tr = Some node → strategy tr = traversal_fn s →
     Tree.all fuel tr h = Err OutOfFuel) ∧
  (∀ (tr : Tree M) (W : Type) (callback : loc → W → W) (w : W),
     root tr = Some node → Tree.walk fuel tr h callback w = Err OutOfFuel).
Proof.
  intros Hcyc.
  assert (∀ o, Node.depthFirstSearch fuel h node o = Err OutOfFuel) as Hdfs.
  { intros o. unfold Node.depthFirstSearch. by rewrite traverse_cycle. }
  assert (Node.breadthFirstOrder fuel h node = Err OutOfFuel) as Hbfs.
  { apply breadthFirstOrder_loop_cycle. exists node. split; [left|done]. }
  split_and!; [done..| |].
  - intros tr s Hroot Hstrat. unfold Tree.all. rewrite Hroot, Hstrat.
    destruct s as [o|]; cbn [traversal_fn]; by rewrite ?Hdfs, ?Hbfs.
  - intros tr W callback w Hroot. unfold Tree.walk. by rewrite Hroot, Hdfs.
Qed.

End Cycles.

(** ** [parse] gives a tree *)

Section ParseTree.
Context {M : Type}.
Implicit Types (h : heap M) (d : jsdata M) (t : rose) (n : loc).

Lemma unfolding_agree h1 h2 t :
  unfolding h1 t = true → (∀ x, x ∈ rose_nodes t → h2 !! x = h1 !! x) →
  unfolding h2 t = true.
Proof.
  induction t as [n ts IH] using rose_ind_kids. intros Ht Hsame.
  apply unfolding_Rose in Ht as (nd & Hn & Hc & Hk). apply unfolding_Rose.
  exists nd. split_and!; [|done|].
  - rewrite Hsame; [done|]. apply (rose_root_elem (Rose n ts)).
  - rewrite Forall_forall in IH, Hk. apply Forall_forall. intros k Hin.
    apply IH; [done|by apply Hk|]. intros x Hx. apply Hsame.
    apply elem_of_rose_nodes. right. eauto.
Qed.

Lemma forEach_tree (l : list (jsdata M)) :
  Forall callback_tree l →
  ∀ p k h, forallb entries_present l = true → is_Some (h !! p) →
    ∃ h' ts, forEach (Tree.parseChildren_callback p) l k h = Ok h' ∧
             grows_at h h' p (rose_root <$> ts) ∧
             Forall (fun t => unfolding h' t = true) ts ∧
             NoDup (mjoin (rose_nodes <$> ts)) ∧
             (∀ x, x ∈ mjoin (rose_nodes <$> ts) → x ∈ dom h' ∧ x ∉ dom h) ∧
             sum_list_with rose_size ts = sum_list_with data_size l.
Proof.
  induction 1 as [|e l He _ IH]; intros p k h Hl Hp.
  - exists h, []. split_and!; [done|apply grows_at_refl|done|constructor| |done].
    by intros x ?%elem_of_nil.
  - simpl in Hl. apply andb_true_iff in Hl as [Hpe Hpl].
    destruct (He p k h Hpe Hp) as (h1 & t1 & Hcb & Hg1 & Hu1 & Hnd1 & Hin1 & Hsz1).
    assert (is_Some (h1 !! p)) as Hp1.
    { destruct Hp as [pnd Hpnd]. rewrite (proj1 Hg1 _ Hpnd). eauto. }
    pose proof (grows_at_dom _ _ _ _ Hg1 Hp) as Hdom1.
    destruct (IH p (S k) h1 Hpl Hp1) as (h2 & ts & Hfe & Hg2 & Hus & Hnds & Hins & Hszs).
    pose proof (grows_at_dom _ _ _ _ Hg2 Hp1) as Hdom2.
    exists h2, (t1 :: ts). cbn [forEach]. rewrite Hcb. simpl. split_and!.
    + exact Hfe.
    + by apply (grows_at_trans h h1 h2 p [rose_root t1] (rose_root <$> ts)).
    + constructor; [|done]. apply (unfolding_agree h1); [done|].
      intros x Hx. destruct (Hin1 x Hx) as [Hx1 Hx0].
      apply (proj2 Hg2); [done|]. intros ->. apply Hx0. by apply elem_of_dom.
    + apply NoDup_app. split_and!; [done| |done].
      intros x Hx Hx'. destruct (Hin1 x Hx) as [Hx1 _].
      by destruct (Hins x Hx') as [_ Hnot].
    + intros x [Hx|Hx]%elem_of_app.
      * destruct (Hin1 x Hx) as [Hx1 Hx0]. split; [by apply Hdom2|done].
      * destruct (Hins x Hx) as [Hx2 Hx1]. split; [done|].
        intros Hx0. by apply Hx1, Hdom1.
    + by rewrite Hsz1, Hszs.
Qed.

Lemma callback_tree_all (d : jsdata M) : callback_tree d.
Proof.
  induction d as [|m i0|m i0 cs IH] using jsdata_ind_entries;
    intros parentNode i h Hd Hparent; [done| |].
  - destruct (new_child_grows h parentNode m (Some (Z.of_nat i + 1)%Z) Hparent)
      as (Hfresh & Hne & Hgrow & Hc).
    cbn [Tree.parseChildren_callback].
    destruct (new_TreeNode h m (Some (Z.of_nat i + 1)%Z)) as [c h1] eqn:Hnew.
    cbn [fst snd] in *.
    set (h2 := Node.addChild h1 parentNode (Some c)) in *.
    exists h2, (Rose c []). split; [done|]. split; [exact Hgrow|]. split_and!.
    + apply unfolding_Rose. eexists. split_and!; [exact Hc|done|constructor].
    + apply NoDup_singleton.
    + intros x ->%list_elem_of_singleton. split; [|done].
      apply elem_of_dom. rewrite Hc. eauto.
    + done.
  - destruct (new_child_grows h parentNode m (Some (Z.of_nat i + 1)%Z) Hparent)
      as (Hfresh & Hne & Hgrow & Hc).
    cbn [Tree.parseChildren_callback].
    destruct (new_TreeNode h m (Some (Z.of_nat i + 1)%Z)) as [c h1] eqn:Hnew.
    cbn [fst snd] in *.
    set (h2 := Node.addChild h1 parentNode (Some c)) in *.
    assert (dom h ⊆ dom h2) as Hdom2 by by eapply grows_at_dom.
    assert (c ∈ dom h2) as Hc2 by (apply elem_of_dom; rewrite Hc; eauto).
    destruct (forEach_tree cs IH c 0 h2 Hd)
      as (h3 & ts & Hfe & Hg3 & Hus & Hnds & Hins & Hszs); [eauto|].
    pose proof (proj1 Hg3 _ Hc) as Hc3. simpl in Hc3.
    exists h3, (Rose c ts). split; [done|]. split_and!.
    + split.
      * intros pnd Hp. rewrite (proj2 Hg3); [by apply (proj1 Hgrow)| |done].
        apply elem_of_dom. rewrite (proj1 Hgrow _ Hp). eauto.
      * intros n Hn Hnp. rewrite (proj2 Hg3); [by apply (proj2 Hgrow)| |].
        -- by apply Hdom2.
        -- intros ->. done.
    + apply unfolding_Rose. eexists. split_and!; [exact Hc3|done..].
    + cbn [rose_nodes]. constructor; [|done].
      intros Hin. by destruct (Hins c Hin) as [_ Hnot].
    + intros x [->|Hx]%elem_of_cons.
      * split; [|done]. apply elem_of_dom. rewrite Hc3. eauto.
      * destruct (Hins x Hx) as [Hx3 Hx2]. split; [done|].
        intros Hx0. by apply Hx2, Hdom2.
    + simpl. by rewrite Hszs.
Qed.

(** The tree [parse] makes of an input with a [children] array and no
    absent entry. *)
Lemma parse_tree h (m : M) (i : option Z) (cs : list (jsdata M)) :
  forallb entries_present cs = true →
  ∃ r h' t, Tree.parse h (JObject m i (Some cs)) = Ok (Some r, h') ∧
            is_tree h' r t ∧
            rose_size t = data_size (JObject m i (Some cs)) ∧
            (∀ x, x ∈ rose_nodes t → x ∉ dom h).
Proof.
  intros Hcs. cbn [Tree.parse Tree.parseChildren].
  destruct (new_TreeNode h m i) as [r h1] eqn:Hnew.
  assert (r ∉ dom h) as Hfresh by (injection Hnew as <- _; apply is_fresh).
  assert (h1 !! r = Some (mkTreeNode m i [])) as Hr
    by (injection Hnew as <- <-; apply lookup_insert_eq).
  assert (dom h ⊆ dom h1) as Hdom.
  { intros n Hn. apply elem_of_dom. injection Hnew as <- <-.
    rewrite lookup_insert_ne; [by apply elem_of_dom|]. intros <-. done. }
  assert (r ∈ dom h1) as Hr1 by (apply elem_of_dom; rewrite Hr; eauto).
  assert (Forall callback_tree cs) as Hcb
    by (apply Forall_forall; intros e _; apply callback_tree_all).
  destruct (forEach_tree cs Hcb r 0 h1 Hcs)
    as (h' & ts & -> & Hg & Hus & Hnds & Hins & Hszs); [eauto|].
  pose proof (proj1 Hg _ Hr) as Hr'. simpl in Hr'.
  exists r, h', (Rose r ts). simpl. split_and!; [done| |by rewrite Hszs|].
  - split_and!; [|done|].
    + apply unfolding_Rose. eexists. split_and!; [exact Hr'|done..].
    + cbn [rose_nodes]. constructor; [|done].
      intros Hin. by destruct (Hins r Hin) as [_ Hnot].
  - intros x [->|Hx]%elem_of_cons; [done|].
    destruct (Hins x Hx) as [_ Hx1]. intros Hx0. by apply Hx1, Hdom.
Qed.

(** X16: for an input with a [children] array and no absent entry, what
    [parse] builds is a tree in the sense of the library: acyclic, no node
    held twice, made of nodes that were not in the store before, one for
    each object of the input. *)
Theorem parse_yields_tree h (m : M) (i : option Z) (cs : list (jsdata M)) :
  forallb entries_present cs = true →
  ∃ r h' t, Tree.parse h (JObject m i (Some cs)) = Ok (Some r, h') ∧
            is_tree h' r t ∧
            rose_size t = data_size (JObject m i (Some cs)) ∧
            (∀ x, x ∈ rose_nodes t → x ∉ dom h).
Proof. apply parse_tree. Qed.


End ParseTree.

(** ** A new leaf in a tree *)

Section Graft.
Context {M V : Type} `{Model M V, EqDecision V}.
Implicit Types (h : heap M) (t : rose) (n : loc).

Lemma rose_graft_root n c t : rose_root (rose_graft n c t) = rose_root t.
Proof. by destruct t. Qed.

Lemma rose_graft_roots n c (ts : list rose) :
  rose_root <$> (rose_graft n c <$> ts) = rose_root <$> ts.
Proof.
  induction ts as [|k ts IH]; [done|]. csimpl. by rewrite rose_graft_root, IH.
Qed.

(** Pushing a leaf onto the children of a node of an unfolding. *)
Lemma unfolding_graft h n c t :
  unfolding h t = true → is_Some (h !! c) → children_of h c = [] →
  c ∉ rose_nodes t →
  unfolding (Node.addChild h n (Some c)) (rose_graft n c t) = true.
Proof.
  intros Ht [cnd Hc] Hleaf. revert Ht.
  induction t as [m ts IH] using rose_ind_kids. intros Ht Hnot.
  apply unfolding_Rose in Ht as (nd & Hm & Hcs & Hk).
  assert (c ≠ m) as Hcm by (intros ->; apply Hnot, (rose_root_elem (Rose m ts))).
  assert (Forall (fun k => unfolding (Node.addChild h n (Some c)) k = true)
            (rose_graft n c <$> ts)) as Hkids.
  { apply Forall_fmap, Forall_forall. intros k Hin. simpl.
    rewrite Forall_forall in IH, Hk. apply IH; [done|by apply Hk|].
    intros Hck. apply Hnot, elem_of_rose_nodes. right. eauto. }
  cbn [rose_graft]. apply unfolding_Rose.
  case_bool_decide as Hmn.
  - subst n. eexists. split_and!.
    + unfold Node.addChild, set_children. by rewrite lookup_alter_eq, Hm.
    + simpl. unfold children_of. rewrite Hm, Hcs, fmap_app.
      by rewrite rose_graft_roots.
    + apply Forall_app. split; [done|]. constructor; [|constructor].
      apply unfolding_Rose. exists cnd. split_and!; [|simpl|constructor].
      * unfold Node.addChild. by rewrite lookup_set_children_ne.
      * unfold children_of in Hleaf. by rewrite Hc in Hleaf.
  - exists nd. unfold Node.addChild at 1. rewrite lookup_set_children_ne by done.
    rewrite app_nil_r, rose_graft_roots. by split_and!.
Qed.

Lemma rose_graft_nodes n c t x :
  x ∈ rose_nodes (rose_graft n c t) ↔
  x ∈ rose_nodes t ∨ (x = c ∧ n ∈ rose_nodes t).
Proof.
  induction t as [m ts IH] using rose_ind_kids. rewrite Forall_forall in IH.
  cbn [rose_graft]. rewrite !elem_of_rose_nodes. split.
  - intros [->|(k' & Hk' & Hx)]; [by left; left|].
    apply elem_of_app in Hk' as [(k & -> & Hk)%list_elem_of_fmap|Hk'].
    + apply (IH k Hk) in Hx as [Hx|[-> Hn]].
      * left. right. eauto.
      * right. split; [done|]. right. eauto.
    + case_bool_decide as Hmn; [|by apply elem_of_nil in Hk'].
      apply list_elem_of_singleton in Hk' as ->.
      apply elem_of_rose_nodes in Hx as [->|(k & Hk & _)];
        [|by apply elem_of_nil in Hk].
      right. split; [done|]. by left.
  - intros [[->|(k & Hk & Hx)]|[-> [->|(k & Hk & Hn)]]].
    + by left.
    + right. exists (rose_graft n c k). split.
      * apply elem_of_app. left. apply list_elem_of_fmap. eauto.
      * apply (IH k Hk). by left.
    + right. exists (Rose c []). rewrite bool_decide_eq_true_2 by done. split.
      * apply elem_of_app. right. left.
      * apply (rose_root_elem (Rose c [])).
    + right. exists (rose_graft n c k). split.
      * apply elem_of_app. left. apply list_elem_of_fmap. eauto.
      * apply (IH k Hk). by right.
Qed.

Lemma rose_graft_id n c t : n ∉ rose_nodes t → rose_graft n c t = t.
Proof.
  induction t as [m ts IH] using rose_ind_kids. intros Hnot.
  cbn [rose_graft]. rewrite bool_decide_eq_false_2, app_nil_r.
  2:{ intros ->. apply Hnot, (rose_root_elem (Rose n ts)). }
  f_equal.
  assert (∀ k, k ∈ ts → n ∉ rose_nodes k) as Hkids.
  { intros k Hk Hin. apply Hnot, elem_of_rose_nodes. right. eauto. }
  clear Hnot. induction IH as [|k ts Hk _ IHts]; [done|]. csimpl.
  rewrite Hk by (apply Hkids; left). f_equal. apply IHts.
  intros k' Hk'. apply Hkids. by right.
Qed.

Lemma rose_graft_ids n c (ts : list rose) :
  (∀ k, k ∈ ts → n ∉ rose_nodes k) → rose_graft n c <$> ts = ts.
Proof.
  induction ts as [|k ts IH]; intros Hkids; [done|]. csimpl.
  rewrite rose_graft_id by (apply Hkids; left). f_equal. apply IH.
  intros k' Hk'. apply Hkids. by right.
Qed.

(** In a tree the node occurs once, so one leaf is added. *)
Lemma rose_graft_size n c t :
  NoDup (rose_nodes t) → n ∈ rose_nodes t →
  rose_size (rose_graft n c t) = S (rose_size t).
Proof.
  induction t as [m ts IH] using rose_ind_kids. intros Hnd Hn.
  cbn [rose_graft rose_size]. rewrite sum_list_with_app. case_bool_decide as Hmn.
  - subst m. rewrite rose_graft_ids; [simpl; lia|].
    intros k Hk Hin. cbn [rose_nodes] in Hnd. apply NoDup_cons in Hnd as [Hnot _].
    apply Hnot, list_elem_of_join. exists (rose_nodes k). split; [done|].
    apply list_elem_of_fmap. eauto.
  - apply elem_of_rose_nodes in Hn as [->|(kj & Hkj & Hn)]; [done|].
    apply list_elem_of_split in Hkj as (ts1 & ts2 & ->).
    rewrite fmap_app, fmap_cons, !rose_graft_ids.
    2:{ intros k Hk Hin. eapply (kids_disjoint m ts1 kj ts2 k n); [done| |done..].
        apply elem_of_app. by right. }
    2:{ intros k Hk Hin. eapply (kids_disjoint m ts1 kj ts2 k n); [done| |done..].
        apply elem_of_app. by left. }
    rewrite Forall_forall in IH. rewrite !sum_list_with_app. cbn [sum_list_with].
    rewrite (IH kj); [lia| | |done].
    + apply elem_of_app. right. left.
    + eapply NoDup_rose_kid; [done|]. apply elem_of_app. right. left.
Qed.

Lemma insertChild_loop_find h (p : predicate M) c nodes :
  Tree.insertChild_loop h p c nodes =
  match List.find (p h) nodes with
  | Some n => Node.addChild h n (Some c)
  | None => h
  end.
Proof.
  induction nodes as [|x nodes IH]; [done|]. simpl. by destruct (p h x).
Qed.

(** X18: on a tree, [insertChild] of a node that is in the store without
    children and outside the tree, when [n] is the first node that [all]
    lists and the predicate accepts, pushes the node onto the children of
    [n]; afterwards [all] lists the node and the nodes the tree had, each
    once, one node more than before. *)
Theorem insertChild_then_all fuel (tr : Tree M) h r t (s : traversal) c
    (pp : predicateOrProperty M V) nodes n :
  root tr = Some r → strategy tr = traversal_fn s → is_tree h r t →
  S (rose_size t) ≤ fuel →
  is_Some (h !! c) → children_of h c = [] → ¬ tree_node h r c →
  Tree.all fuel tr h = Ok (Some nodes) →
  List.find (resolve pp h) nodes = Some n →
  ∃ h' l, Tree.insertChild fuel tr h c pp = Ok h' ∧
          children_of h' n = children_of h n ++ [c] ∧
          Tree.all fuel tr h' = Ok (Some l) ∧
          (∀ x, x ∈ l ↔ x = c ∨ tree_node h r x) ∧
          NoDup l ∧ length l = S (length nodes).
Proof.
  intros Hroot Hstrat (Ht & <- & Hnd) Hfuel Hc Hleaf Hout Hall Hfind.
  destruct (traversal_unfolding h t s Ht) as (l0 & Hp0 & Hl0).
  unfold Tree.all in Hall. rewrite Hroot, Hstrat, Hl0 in Hall by lia.
  injection Hall as <-.
  apply find_some_elem in Hfind as Hn. destruct Hn as [Hn _].
  rewrite Hp0 in Hn.
  assert (c ∉ rose_nodes t) as Hct
    by (intros Hin; by apply Hout, (rose_nodes_reach h t)).
  assert (is_Some (h !! n)) as Hn_alloc.
  { destruct (unfolding_at h t n Ht Hn) as ([m ks] & Hs & <- & _).
    apply unfolding_Rose in Hs as (nd & Hlook & _). simpl. rewrite Hlook. eauto. }
  pose proof (unfolding_graft h n c t Ht Hc Hleaf Hct) as Hgraft.
  pose proof (rose_graft_size n c t Hnd Hn) as Hsize.
  destruct (traversal_unfolding _ _ s Hgraft) as (l & Hp & Hl).
  assert (c :: rose_nodes t ≡ₚ rose_nodes (rose_graft n c t)) as Hperm.
  { apply submseteq_length_Permutation.
    - apply NoDup_submseteq; [by constructor|].
      intros x Hx. apply rose_graft_nodes.
      apply elem_of_cons in Hx as [->|Hx]; [by right|by left].
    - rewrite !length_rose_nodes. simpl. rewrite length_rose_nodes. lia. }
  exists (Node.addChild h n (Some c)), l. split_and!.
  - unfold Tree.insertChild. rewrite Hroot, Hstrat, Hl0 by lia. simpl.
    by rewrite insertChild_loop_find, Hfind.
  - unfold Node.addChild. by rewrite children_of_set_children_eq.
  - unfold Tree.all. rewrite Hroot, Hstrat.
    rewrite <-(rose_graft_root n c t), Hl; [done|lia].
  - intros x. rewrite Hp, <-Hperm, elem_of_cons.
    by rewrite (rose_nodes_reach h t).
  - rewrite Hp, <-Hperm. by constructor.
  - rewrite Hp, Hp0, <-Hperm. done.
Qed.

End Graft.

(** ** The further properties on the tree of the tests *)

Ltac by_compute := apply (bool_decide_unpack _); vm_compute; exact I.

Lemma sample_is_tree : is_tree Sample.store Sample.rootNode Sample.shape.
Proof. split; [reflexivity|]. split; [reflexivity|by_compute]. Defined.

Lemma sample_owns_child1 : owns Sample.store Sample.rootNode Sample.child1.
Proof. unfold owns. by_compute. Defined.

Lemma sample_owns_grandchild1 : owns Sample.store Sample.child1 Sample.grandchild1.
Proof. unfold owns. by_compute. Defined.

Lemma sample_reaches_grandchild1 :
  tree_node Sample.store Sample.rootNode Sample.grandchild1.
Proof.
  apply (rose_nodes_reach Sample.store Sample.shape); [reflexivity|by_compute].
Defined.

(** The path to [grandchild1]. *)
Lemma getPath_reaches_target_sample :
  unfolding Sample.store Sample.shape = true ∧
  ∃ p, Node.getPath 4 Sample.store Sample.rootNode Sample.grandchild1 = Ok (Some p) ∧
       head p = Some Sample.rootNode ∧ last p = Some Sample.grandchild1 ∧
       linked Sample.store p ∧
       Node.getReversePath 4 Sample.store Sample.rootNode Sample.grandchild1
         = Ok (Some (reverse p)).
Proof.
  split; [reflexivity|].
  apply (getPath_reaches_target Sample.store Sample.shape).
  - reflexivity.
  - reflexivity.
  - simpl. lia.
  - exact sample_reaches_grandchild1.
Defined.

(** No path to a node that is not in the tree. *)
Lemma getPath_absent_outside_sample :
  unfolding Sample.store Sample.shape = true ∧
  Node.getPath 4 Sample.store Sample.rootNode Sample.newNode = Ok None ∧
  Node.getReversePath 4 Sample.store Sample.rootNode Sample.newNode = Ok None.
Proof.
  split; [reflexivity|].
  apply (getPath_absent_outside Sample.store Sample.shape).
  - reflexivity.
  - reflexivity.
  - simpl. lia.
  - intros Hr%(rose_nodes_reach Sample.store Sample.shape); [|reflexivity].
    revert Hr. by_compute.
Defined.

(** [rootNode.moveChild(child1, child2)]. *)
Lemma moveChild_detaches_and_attaches_sample :
  is_Some (Sample.store !! Sample.rootNode) ∧
  children_of (Node.moveChild Sample.store Sample.rootNode (Some Sample.child1)
                 (Some Sample.child2)) Sample.child2
    = children_of Sample.store Sample.child2 ++ [Sample.child1].
Proof.
  assert (is_Some (Sample.store !! Sample.rootNode)) as Hroot
    by (eexists; reflexivity).
  assert (is_Some (Sample.store !! Sample.child2)) as Hchild2
    by (eexists; reflexivity).
  split; [exact Hroot|].
  destruct (moveChild_detaches_and_attaches Sample.store Sample.rootNode
              Sample.child2 Sample.child1 Hroot Hchild2) as (Hne & _).
  apply Hne. discriminate.
Defined.

(** Pushing a node onto the children of [child2] and removing it again. *)
Lemma removeChild_addChild_sample :
  (Sample.newNode ∉ children_of Sample.store Sample.child2) ∧
  Node.removeChild (Node.addChild Sample.store Sample.child2 (Some Sample.newNode))
    Sample.child2 (Some Sample.newNode) = Sample.store.
Proof.
  assert (Sample.newNode ∉ children_of Sample.store Sample.child2) as Hnot
    by by_compute.
  split; [exact Hnot|]. apply (removeChild_addChild Sample.store). exact Hnot.
Defined.

(** Deleting the children of the root whose name is ["child2"]. *)
Lemma deleteChildren_removes_matches_sample :
  is_Some (Sample.store !! Sample.rootNode) ∧
  Node.findChildren
    (Node.deleteChildren Sample.store Sample.rootNode
       (Property "name" (Sample.VStr "child2")))
    Sample.rootNode (Property "name" (Sample.VStr "child2")) = [].
Proof.
  assert (is_Some (Sample.store !! Sample.rootNode)) as Hroot
    by (eexists; reflexivity).
  split; [exact Hroot|].
  apply (deleteChildren_removes_matches Sample.store Sample.rootNode
           (Property "name" (Sample.VStr "child2")) Hroot).
  apply resolve_Property_model_only.
Defined.

(** [tree.remove(child1)]. *)
Lemma remove_detaches_from_parent_sample :
  is_tree Sample.store Sample.rootNode Sample.shape ∧
  Tree.remove 4 Sample.tree Sample.store Sample.child1
    = Ok (Sample.tree,
          Node.removeChild Sample.store Sample.rootNode (Some Sample.child1)).
Proof.
  split; [exact sample_is_tree|].
  apply (remove_detaches_from_parent 4 Sample.tree Sample.store Sample.rootNode
           Sample.shape Sample.child1).
  - reflexivity.
  - exact sample_is_tree.
  - simpl. lia.
  - discriminate.
  - apply rtc_refl.
  - exact sample_owns_child1.
Defined.

(** [tree.remove(child1)] followed by [all], as in the test suite. *)
Lemma remove_drops_subtree_sample :
  is_tree Sample.store Sample.rootNode Sample.shape ∧
  ∃ h' l s,
    Tree.remove 4 Sample.tree Sample.store Sample.child1 = Ok (Sample.tree, h') ∧
    Tree.all 4 Sample.tree h' = Ok (Some l) ∧
    (Sample.child1 ∉ l) ∧
    (∀ n, n ∈ l ↔ tree_node h' Sample.rootNode n) ∧
    (∀ n, n ∈ l → tree_node Sample.store Sample.rootNode n) ∧
    unfolding Sample.store s = true ∧ rose_root s = Sample.child1 ∧
    length l + rose_size s = rose_size Sample.shape.
Proof.
  split; [exact sample_is_tree|].
  apply (remove_drops_subtree 4 Sample.tree Sample.store Sample.rootNode
           Sample.shape Sample.child1 Sample.rootNode (DepthFirst InOrder)).
  - reflexivity.
  - reflexivity.
  - exact sample_is_tree.
  - simpl. lia.
  - discriminate.
  - apply rtc_refl.
  - exact sample_owns_child1.
Defined.

(** [rootNode.getParent(grandchild1)]. *)
Lemma getParent_in_tree_sample :
  is_tree Sample.store Sample.rootNode Sample.shape ∧
  Node.getParent 4 Sample.store Sample.rootNode (Some Sample.grandchild1)
    = Ok (Some Sample.child1).
Proof.
  split; [exact sample_is_tree|].
  apply (getParent_in_tree Sample.store Sample.rootNode Sample.shape
           Sample.grandchild1 4).
  - exact sample_is_tree.
  - simpl. lia.
  - apply tc_once. exact sample_owns_child1.
  - exact sample_owns_grandchild1.
Defined.

(** [tree.move(grandchild1, child2)]. *)
Lemma move_attaches_without_detaching_sample :
  unfolding Sample.store Sample.shape = true ∧
  ∃ h', Tree.move 4 Sample.tree Sample.store Sample.grandchild1 Sample.child2
          = Ok h' ∧
        children_of h' Sample.child2
          = children_of Sample.store Sample.child2 ++ [Sample.grandchild1] ∧
        (∀ n, n ≠ Sample.child2 → h' !! n = Sample.store !! n) ∧
        (∀ former, owns Sample.store former Sample.grandchild1 →
                   owns h' former Sample.grandchild1).
Proof.
  split; [reflexivity|].
  apply (move_attaches_without_detaching 4 Sample.tree Sample.store
           Sample.rootNode Sample.shape).
  - reflexivity.
  - reflexivity.
  - reflexivity.
  - simpl. lia.
  - exact sample_reaches_grandchild1.
  - eexists. reflexivity.
Defined.

(** [walk] with a callback that collects the nodes, and with one that counts. *)
Lemma walk_visits_post_order_sample :
  unfolding Sample.store Sample.shape = true ∧
  Tree.walk 4 Sample.tree Sample.store (fun node seen => seen ++ [node]) []
    = Ok [Sample.grandchild1; Sample.child1; Sample.child2; Sample.rootNode] ∧
  Tree.walk 4 Sample.tree Sample.store (fun _ count => S count) 0 = Ok 4.
Proof.
  split; [reflexivity|].
  destruct (walk_visits_post_order 4 Sample.tree Sample.store Sample.rootNode
              Sample.shape (fun node seen => seen ++ [node]) [])
    as (Hwalk & _ & Hcount); [reflexivity|reflexivity|reflexivity|simpl; lia|].
  split; [exact Hwalk|exact Hcount].
Defined.

(** The sequences of the root from those of its children. *)
Lemma depthFirstSearch_of_children_sample :
  unfolding Sample.store Sample.shape = true ∧
  ∃ pre post,
    Forall2 (fun c l => Node.depthFirstSearch 4 Sample.store c PreOrder = Ok l)
      (children_of Sample.store Sample.rootNode) pre ∧
    Node.depthFirstSearch 4 Sample.store Sample.rootNode PreOrder
      = Ok (Sample.rootNode :: mjoin pre) ∧
    Forall2 (fun c l => Node.depthFirstSearch 4 Sample.store c PostOrder = Ok l)
      (children_of Sample.store Sample.rootNode) post ∧
    Node.depthFirstSearch 4 Sample.store Sample.rootNode PostOrder
      = Ok (mjoin post ++ [Sample.rootNode]).
Proof.
  split; [reflexivity|].
  apply (depthFirstSearch_of_children Sample.store Sample.shape).
  - reflexivity.
  - reflexivity.
  - simpl. lia.
Defined.

(** Breadth-first on the tree of the tests. *)
Lemma breadthFirstOrder_level_order_sample :
  unfolding Sample.store Sample.shape = true ∧
  Node.breadthFirstOrder 4 Sample.store Sample.rootNode
    = Ok [Sample.rootNode; Sample.child1; Sample.child2; Sample.grandchild1].
Proof.
  split; [reflexivity|].
  apply (breadthFirstOrder_level_order Sample.store Sample.shape Sample.rootNode 4).
  - reflexivity.
  - reflexivity.
  - simpl. lia.
Defined.

(** [parse] of the input of the test suite into an empty store. *)
Lemma parse_builds_tree_sample :
  forallb entries_present Sample.input_children = true ∧
  ∃ r h', Tree.parse ∅ Sample.input = Ok (Some r, h') ∧
          (∀ n, n ∈ dom (∅ : heap Sample.model_t) → h' !! n = (∅ : heap Sample.model_t) !! n) ∧
          built h' (dom (∅ : heap Sample.model_t)) Sample.input (Some 0%Z) r.
Proof.
  split; [reflexivity|].
  apply (parse_builds_tree ∅ (Sample.mkModel 0 "root" 10) (Some 0%Z)
           Sample.input_children).
  reflexivity.
Defined.

(** [parse] of an input whose [children] hold an absent entry. *)
Lemma parse_absent_entry_throws_sample :
  forallb entries_present [JAbsent (M := Sample.model_t)] = false ∧
  Tree.parse (∅ : heap Sample.model_t)
    (JObject (Sample.mkModel 0 "root" 10) None (Some [JAbsent])) = Err TypeError.
Proof.
  split; [reflexivity|].
  apply (parse_absent_entry_throws ∅ (Sample.mkModel 0 "root" 10) None [JAbsent]).
  reflexivity.
Defined.

Lemma sample_cycle : reaches_cycle Sample.cyclic Sample.rootNode.
Proof.
  exists Sample.rootNode. split; [apply rtc_refl|].
  apply (tc_l _ _ Sample.child2).
  - unfold owns. by_compute.
  - apply tc_once. unfold owns. by_compute.
Defined.

(** The traversals after [child2.addChild(rootNode)]. *)
Lemma traversals_never_return_on_cycle_sample :
  reaches_cycle Sample.cyclic Sample.rootNode ∧
  Node.depthFirstSearch 100 Sample.cyclic Sample.rootNode InOrder = Err OutOfFuel ∧
  Node.breadthFirstOrder 100 Sample.cyclic Sample.rootNode = Err OutOfFuel.
Proof.
  split; [exact sample_cycle|].
  destruct (traversals_never_return_on_cycle Sample.cyclic Sample.rootNode 100
              sample_cycle) as (Hdfs & Hbfs & _).
  split; [apply Hdfs|exact Hbfs].
Defined.

(** The tree [parse] makes of the input of the test suite. *)
Lemma parse_yields_tree_sample :
  forallb entries_present Sample.input_children = true ∧
  ∃ r h' t, Tree.parse ∅ Sample.input = Ok (Some r, h') ∧
            is_tree h' r t ∧ rose_size t = data_size Sample.input ∧
            (∀ x, x ∈ rose_nodes t → x ∉ dom (∅ : heap Sample.model_t)).
Proof.
  split; [reflexivity|].
  apply (parse_yields_tree ∅ (Sample.mkModel 0 "root" 10) (Some 0%Z)
           Sample.input_children).
  reflexivity.
Defined.


Lemma sample_new_is_tree : is_tree Sample.store_new Sample.rootNode Sample.shape.
Proof. split; [reflexivity|]. split; [reflexivity|by_compute]. Defined.

(** [tree.insertChild(newNode, node => node.model.name === "child2")]
    followed by [all]. *)
Lemma insertChild_then_all_sample :
  is_tree Sample.store_new Sample.rootNode Sample.shape ∧
  ∃ h' l,
    Tree.insertChild (V := Sample.prop_value) 5 Sample.tree Sample.store_new
      Sample.newNode (Predicate (Sample.named "child2")) = Ok h' ∧
    children_of h' Sample.child2
      = children_of Sample.store_new Sample.child2 ++ [Sample.newNode] ∧
    Tree.all 5 Sample.tree h' = Ok (Some l) ∧
    (∀ x, x ∈ l ↔ x = Sample.newNode ∨ tree_node Sample.store_new Sample.rootNode x) ∧
    NoDup l ∧ length l = 5.
Proof.
  split; [exact sample_new_is_tree|].
  apply (insertChild_then_all (V := Sample.prop_value) 5 Sample.tree
           Sample.store_new Sample.rootNode Sample.shape (DepthFirst InOrder)
           Sample.newNode (Predicate (Sample.named "child2"))
           [Sample.grandchild1; Sample.child1; Sample.child2; Sample.rootNode]
           Sample.child2).
  - reflexivity.
  - reflexivity.
  - exact sample_new_is_tree.
  - simpl. lia.
  - eexists. reflexivity.
  - reflexivity.
  - intros Hr%(rose_nodes_reach Sample.store_new Sample.shape); [|reflexivity].
    revert Hr. by_compute.
  - reflexivity.
  - reflexivity.
Defined.
